(** * Scene bookkeeping of OGRE: hashed light lists and movable objects

    A shallow embedding of [OgreMain/include/OgreCommon.h] (the
    [HashedVector] template and [LightClosest]) and of
    [OgreMain/src/OgreMovableObject.cpp], with the properties that the
    design document states about them. *)

From Stdlib Require Import ZArith Lia.
From stdpp Require Import base decidable option list sorting gmap.

Local Open Scope Z_scope.

(** C++ [uint32], [uint8] and [ushort] values are carried by [Z]. *)
Abbreviation uint32 := Z (only parsing).
Abbreviation uint8 := Z (only parsing).
Abbreviation ushort := Z (only parsing).

(* ===================================================================== *)
(** * [HashedVector<T>] *)
(* ===================================================================== *)

Module HashedVector.

Section hashed_vector.
Context {T : Type}.

(** [FastHash((const char* )&x, sizeof(T), hashSoFar)]: only declared in
    [OgreCommon.h]; it is a parameter of everything below. *)
Variable FastHash : T → uint32 → uint32.

(** [T()], the value-initialised element of [HashedVector(size_type n)]
    and of [resize(n)]. *)
Variable T_default : T.

Record t : Type := Build {
  mList : list T;
  mListHash : uint32;
  mListHashDirty : bool
}.

(** [addToHash]: [mListHash = FastHash(&newPtr, sizeof(T), mListHash)]. *)
Definition addToHash (newPtr : T) (v : t) : t :=
  Build (mList v) (FastHash newPtr (mListHash v)) (mListHashDirty v).

(** The loop of [recalcHash]: [addToHash] over [mList.begin() .. end()]. *)
Fixpoint hash_from (h : uint32) (l : list T) : uint32 :=
  match l with
  | [] => h
  | x :: l' => hash_from (FastHash x h) l'
  end.

Definition recalcHash (v : t) : t :=
  Build (mList v) (hash_from 0 (mList v)) false.

Definition dirtyHash (v : t) : t :=
  Build (mList v) (mListHash v) true.

Definition isHashDirty (v : t) : bool := mListHashDirty v.

(** ** Constructors *)

(** [HashedVector()]. *)
Definition ctor : t := Build [] 0 false.

(** [HashedVector(size_type n)]. *)
Definition ctor_n (n : nat) : t :=
  Build (replicate n T_default) 0 (bool_decide (0 < n)%nat).

(** [HashedVector(size_type n, const T& t)]. *)
Definition ctor_fill (n : nat) (x : T) : t :=
  Build (replicate n x) 0 (bool_decide (0 < n)%nat).

(** [HashedVector(const HashedVector<T>& rhs)]. *)
Definition ctor_copy (rhs : t) : t :=
  Build (mList rhs) (mListHash rhs) (mListHashDirty rhs).

(** [HashedVector(InputIterator a, InputIterator b)]: [mListHash] is not
    in the initialiser list, so its value is whatever the storage held;
    [garbage] stands for it. *)
Definition ctor_range (garbage : uint32) (ab : list T) : t :=
  dirtyHash (Build ab garbage false).

(** ** Observers *)

Definition size (v : t) : nat := length (mList v).
Definition empty (v : t) : bool := bool_decide (mList v = []).

(** [getHash() const]: the two fields written are [mutable], so the call
    returns the hash together with the updated object. *)
Definition getHash (v : t) : uint32 * t :=
  let v' := if isHashDirty v then recalcHash v else v in
  (mListHash v', v').

(** [operator==] and [operator<]. *)
Definition op_eq (a b : t) : bool := bool_decide (mListHash a = mListHash b).
Definition op_lt (a b : t) : bool := bool_decide (mListHash a < mListHash b).

(** ** Mutators

    An iterator is the index it points at, [end()] being [size].  A call
    whose behaviour [std::vector] leaves undefined (popping an empty
    vector, a position past the end) gives [None]. *)

(** Non-const [begin()], [rbegin()], [front()], [back()], [operator[]]:
    they hand out a mutable alias and therefore call [dirtyHash].  The
    non-const [at(n)] is left out: its body, [mList.const_iterator(n)],
    is ill-formed once the template is instantiated. *)
Definition touch (v : t) : t := dirtyHash v.

(** [v[n] = x]: non-const [operator[]] followed by the store through the
    reference it returned. *)
Definition store (n : nat) (x : T) (v : t) : option t :=
  if decide (n < size v)%nat then
    let v1 := touch v in
    Some (Build (<[n := x]> (mList v1)) (mListHash v1) (mListHashDirty v1))
  else None.

(** [operator=]. *)
Definition assign (rhs : t) (v : t) : t :=
  Build (mList rhs) (mListHash rhs) (mListHashDirty rhs).

Definition push_back (x : T) (v : t) : t :=
  let v1 := Build (mList v ++ [x]) (mListHash v) (mListHashDirty v) in
  (* Quick progressive hash add *)
  if negb (isHashDirty v1) then addToHash x v1 else v1.

Definition pop_back (v : t) : option t :=
  match mList v with
  | [] => None
  | _ :: _ =>
      Some (dirtyHash (Build (take (size v - 1) (mList v))
                             (mListHash v) (mListHashDirty v)))
  end.

(** [swap(rhs)]: both objects change; the result is [( *this, rhs)]. *)
Definition swap (rhs : t) (v : t) : t * t :=
  let v1 := Build (mList rhs) (mListHash v) (mListHashDirty v) in
  let rhs1 := Build (mList v) (mListHash rhs) (mListHashDirty rhs) in
  (dirtyHash v1, rhs1).

(** [insert(iterator pos, const T& t)]. *)
Definition insert (pos : nat) (x : T) (v : t) : option t :=
  if decide (pos ≤ size v)%nat then
    let recalc := negb (bool_decide (pos = size v)) in
    let v1 := Build (take pos (mList v) ++ x :: drop pos (mList v))
                    (mListHash v) (mListHashDirty v) in
    Some (if recalc then dirtyHash v1 else addToHash x v1)
  else None.

(** [insert(iterator pos, InputIterator f, InputIterator l)]. *)
Definition insert_range (pos : nat) (fl : list T) (v : t) : option t :=
  if decide (pos ≤ size v)%nat then
    Some (dirtyHash (Build (take pos (mList v) ++ fl ++ drop pos (mList v))
                           (mListHash v) (mListHashDirty v)))
  else None.

(** [insert(iterator pos, size_type n, const T& x)]. *)
Definition insert_n (pos : nat) (n : nat) (x : T) (v : t) : option t :=
  if decide (pos ≤ size v)%nat then
    Some (dirtyHash (Build (take pos (mList v) ++ replicate n x
                              ++ drop pos (mList v))
                           (mListHash v) (mListHashDirty v)))
  else None.

(** [erase(iterator pos)]. *)
Definition erase (pos : nat) (v : t) : option t :=
  if decide (pos < size v)%nat then
    Some (dirtyHash (Build (delete pos (mList v))
                           (mListHash v) (mListHashDirty v)))
  else None.

(** [erase(iterator first, iterator last)]. *)
Definition erase_range (first last : nat) (v : t) : option t :=
  if decide (first ≤ last ≤ size v)%nat then
    Some (dirtyHash (Build (take first (mList v) ++ drop last (mList v))
                           (mListHash v) (mListHashDirty v)))
  else None.

Definition clear (v : t) : t := Build [] 0 false.

(** [resize(size_type n, const T& t = T())]. *)
Definition resize (n : nat) (x : T) (v : t) : t :=
  let recalc := negb (bool_decide (n = size v)) in
  let v1 := Build (take n (mList v) ++ replicate (n - size v) x)
                  (mListHash v) (mListHashDirty v) in
  if recalc then dirtyHash v1 else v1.

(** ** The mutating interface as data *)

Inductive op : Type :=
| OpTouch
| OpStore (n : nat) (x : T)
| OpAssign (rhs : t)
| OpPushBack (x : T)
| OpPopBack
| OpSwap (rhs : t)
| OpInsert (pos : nat) (x : T)
| OpInsertRange (pos : nat) (fl : list T)
| OpInsertN (pos n : nat) (x : T)
| OpErase (pos : nat)
| OpEraseRange (first last : nat)
| OpClear
| OpResize (n : nat) (x : T).

Definition apply (o : op) (v : t) : option t :=
  match o with
  | OpTouch => Some (touch v)
  | OpStore n x => store n x v
  | OpAssign rhs => Some (assign rhs v)
  | OpPushBack x => Some (push_back x v)
  | OpPopBack => pop_back v
  | OpSwap rhs => Some (fst (swap rhs v))
  | OpInsert pos x => insert pos x v
  | OpInsertRange pos fl => insert_range pos fl v
  | OpInsertN pos n x => insert_n pos n x v
  | OpErase pos => erase pos v
  | OpEraseRange first last => erase_range first last v
  | OpClear => Some (clear v)
  | OpResize n x => Some (resize n x v)
  end.

Fixpoint run (os : list op) (v : t) : option t :=
  match os with
  | [] => Some v
  | o :: os' => match apply o v with
                | Some v' => run os' v'
                | None => None
                end
  end.

(** Whether the path that [o] takes on [v] avoids [dirtyHash]. *)
Definition skips_dirtyHash (o : op) (v : t) : bool :=
  match o with
  | OpPushBack _ | OpClear | OpAssign _ => true
  | OpInsert pos _ => bool_decide (pos = size v)
  | OpResize n _ => bool_decide (n = size v)
  | _ => false
  end.

(** The stored hash is the hash of the stored elements. *)
Definition in_sync (v : t) : Prop := mListHash v = hash_from 0 (mList v).

(** A vector that is not flagged dirty carries the hash of its elements. *)
Definition coherent (v : t) : Prop := isHashDirty v = false → in_sync v.

Definition operand_coherent (o : op) : Prop :=
  match o with
  | OpAssign rhs => coherent rhs
  | _ => True
  end.

End hashed_vector.

Arguments t : clear implicits.

End HashedVector.

(* ===================================================================== *)
(** * What the translation unit takes from headers outside the sources *)
(* ===================================================================== *)

(** [Real] is a C++ [float]; it stays abstract, with the operations that
    the code applies to it.  The matrix and box types, the affine
    transform of a box, the two render-queue constants and the build
    configuration complete the interface. *)
Class Externals : Type := {
  Real : Type;
  Rzero : Real;
  (** [std::numeric_limits<float>::max()] *)
  Rmax_value : Real;
  Radd : Real → Real → Real;
  Rsub : Real → Real → Real;
  Rmul : Real → Real → Real;
  (** [operator<] on [Real] *)
  Rltb : Real → Real → bool;
  Matrix4 : Type;
  Aabb : Type;
  (** [Aabb::transformAffine] *)
  transformAffine : Matrix4 → Aabb → Aabb;
  RENDER_QUEUE_MAIN : uint8;
  RENDER_QUEUE_MAX : uint8;
  (** whether the build defines [NDEBUG] *)
  NDEBUG : bool
}.

(** The comparison is a strict weak order: what [operator<] is on floats
    once NaN is excluded. *)
Class RealOrder {Ext : Externals} : Prop := {
  Rltb_irrefl a : Rltb a a = false;
  Rltb_trans a b c : Rltb a b = true → Rltb b c = true → Rltb a c = true;
  Rltb_cotrans a b c :
    Rltb a c = true → Rltb a b = true ∨ Rltb b c = true
}.

(** [std::max(a, b)] is [(a < b) ? b : a]. *)
Definition std_max {Ext : Externals} (a b : Real) : Real :=
  if Rltb a b then b else a.

Module Vector3.
Section vector3.
Context {Ext : Externals}.

Record t : Type := Build { x : Real; y : Real; z : Real }.

Definition squaredDistance (a b : t) : Real :=
  let dx := Rsub (x a) (x b) in
  let dy := Rsub (y a) (y b) in
  let dz := Rsub (z a) (z b) in
  Radd (Radd (Rmul dx dx) (Rmul dy dy)) (Rmul dz dz).

End vector3.
End Vector3.

(* ===================================================================== *)
(** * Faults and the two monads *)
(* ===================================================================== *)

Inductive Fault : Type :=
| AssertionFailed   (* an [assert] of a debug build *)
| NullPointer       (* a member access through a null or dangling pointer *)
| OutOfRange.       (* an array slot that does not exist *)

Inductive result (A : Type) : Type :=
| Ok (a : A)
| Fail (f : Fault).
Arguments Ok {A} a.
Arguments Fail {A} f.

Global Instance result_ret : MRet result := λ A a, Ok a.
Global Instance result_bind : MBind result := λ A B f m,
  match m with
  | Ok a => f a
  | Fail e => Fail e
  end.

(** [assert(c)]: checked unless the build defines [NDEBUG]. *)
Definition assert_ {Ext : Externals} (c : bool) : result unit :=
  if NDEBUG then Ok () else if c then Ok () else Fail AssertionFailed.

(** [a[i]] and [a[i] = v] on a structure-of-arrays column. *)
Definition arrayGet {A} (a : list A) (i : nat) : result A :=
  match a !! i with
  | Some v => Ok v
  | None => Fail OutOfRange
  end.

Definition arraySet {A} (a : list A) (i : nat) (v : A) : result (list A) :=
  if decide (i < length a)%nat then Ok (<[i := v]> a) else Fail OutOfRange.

Definition is_null {A} (p : option A) : bool :=
  match p with
  | None => true
  | Some _ => false
  end.

(* ===================================================================== *)
(** * The scene: lights, nodes, movable objects *)
(* ===================================================================== *)

Abbreviation IdType := nat (only parsing).
Abbreviation ObjId := nat (only parsing).
Abbreviation NodeId := nat (only parsing).
Abbreviation ListenerId := nat (only parsing).
Abbreviation FactoryId := nat (only parsing).
Abbreviation ManagerId := nat (only parsing).

Inductive LightTypes : Type := LT_POINT | LT_DIRECTIONAL | LT_SPOTLIGHT.

Section scene.
Context {Ext : Externals}.

(** Modelled from the spec: class [Light] is only forward-declared in the
    sources; a light has a kind, a position and a light mask. *)
Record Light : Type := {
  getType : LightTypes;
  getDerivedPosition : Vector3.t;
  getLightMask : uint32
}.

(** [struct LightClosest]. *)
Record LightClosest : Type := {
  light : option Light;
  globalIndex : nat;
  distance : Real
}.

(** [LightClosest()]. *)
Definition LightClosest_ctor : LightClosest :=
  {| light := None; globalIndex := 0%nat; distance := Rzero |}.

(** [typedef HashedVector<LightClosest> LightList]. *)
Definition LightList : Type := HashedVector.t LightClosest.

(** Modelled from the spec: class [SceneNode] is not among the sources.
    A node carries its derived position and scale and the set of objects
    attached to it. *)
Record SceneNode : Type := {
  _getDerivedPosition : Vector3.t;
  _getDerivedScale : Vector3.t;
  attachedObjects : gset ObjId
}.

Definition set_attachedObjects (s : gset ObjId) (n : SceneNode) : SceneNode :=
  {| _getDerivedPosition := _getDerivedPosition n;
     _getDerivedScale := _getDerivedScale n;
     attachedObjects := s |}.

(** [ObjectData]: the object's slot [mIndex] in the structure-of-arrays
    columns.  Each object carries its view of the columns. *)
Record ObjectData : Type := {
  mIndex : nat;
  mParents : list (option NodeId);
  mLocalAabb : list Aabb;
  mWorldAabb : list Aabb
}.

Definition set_mParents (p : list (option NodeId)) (d : ObjectData) :=
  {| mIndex := mIndex d; mParents := p;
     mLocalAabb := mLocalAabb d; mWorldAabb := mWorldAabb d |}.

Definition set_mWorldAabb (a : list Aabb) (d : ObjectData) :=
  {| mIndex := mIndex d; mParents := mParents d;
     mLocalAabb := mLocalAabb d; mWorldAabb := a |}.

(** The members of [MovableObject] that the translation unit names,
    followed by four that it reads through accessors of the header, which
    is not among the sources: the visibility flags, the query flags, the
    light mask ([getLightMask]) and the bounding radius (the virtual
    [getBoundingRadius]). *)
Record MovableObject : Type := {
  mId : IdType;
  mCreator : option FactoryId;
  mManager : option ManagerId;
  mParentNode : option NodeId;
  mVisible : bool;
  mDebugDisplay : bool;
  mUpperDistance : Real;
  mMinPixelSize : Real;
  mRenderQueueID : uint8;
  mRenderQueuePriority : ushort;
  mCastShadows : bool;
  mListener : option ListenerId;
  mLightList : LightList;
  mObjectData : ObjectData;
  mCachedAabbOutOfDate : bool;
  getVisibilityFlags : uint32;
  getQueryFlags : uint32;
  mLightMask : uint32;
  getBoundingRadius : Real
}.

Definition set_mParentNode (p : option NodeId) (o : MovableObject) :=
  {| mId := mId o; mCreator := mCreator o; mManager := mManager o;
     mParentNode := p;
     mVisible := mVisible o; mDebugDisplay := mDebugDisplay o;
     mUpperDistance := mUpperDistance o; mMinPixelSize := mMinPixelSize o;
     mRenderQueueID := mRenderQueueID o;
     mRenderQueuePriority := mRenderQueuePriority o;
     mCastShadows := mCastShadows o; mListener := mListener o;
     mLightList := mLightList o; mObjectData := mObjectData o;
     mCachedAabbOutOfDate := mCachedAabbOutOfDate o;
     getVisibilityFlags := getVisibilityFlags o;
     getQueryFlags := getQueryFlags o; mLightMask := mLightMask o;
     getBoundingRadius := getBoundingRadius o |}.

Definition set_mObjectData (d : ObjectData) (o : MovableObject) :=
  {| mId := mId o; mCreator := mCreator o; mManager := mManager o;
     mParentNode := mParentNode o;
     mVisible := mVisible o; mDebugDisplay := mDebugDisplay o;
     mUpperDistance := mUpperDistance o; mMinPixelSize := mMinPixelSize o;
     mRenderQueueID := mRenderQueueID o;
     mRenderQueuePriority := mRenderQueuePriority o;
     mCastShadows := mCastShadows o; mListener := mListener o;
     mLightList := mLightList o; mObjectData := d;
     mCachedAabbOutOfDate := mCachedAabbOutOfDate o;
     getVisibilityFlags := getVisibilityFlags o;
     getQueryFlags := getQueryFlags o; mLightMask := mLightMask o;
     getBoundingRadius := getBoundingRadius o |}.

Definition set_mCachedAabbOutOfDate (b : bool) (o : MovableObject) :=
  {| mId := mId o; mCreator := mCreator o; mManager := mManager o;
     mParentNode := mParentNode o;
     mVisible := mVisible o; mDebugDisplay := mDebugDisplay o;
     mUpperDistance := mUpperDistance o; mMinPixelSize := mMinPixelSize o;
     mRenderQueueID := mRenderQueueID o;
     mRenderQueuePriority := mRenderQueuePriority o;
     mCastShadows := mCastShadows o; mListener := mListener o;
     mLightList := mLightList o; mObjectData := mObjectData o;
     mCachedAabbOutOfDate := b;
     getVisibilityFlags := getVisibilityFlags o;
     getQueryFlags := getQueryFlags o; mLightMask := mLightMask o;
     getBoundingRadius := getBoundingRadius o |}.

Definition set_mLightList (l : LightList) (o : MovableObject) :=
  {| mId := mId o; mCreator := mCreator o; mManager := mManager o;
     mParentNode := mParentNode o;
     mVisible := mVisible o; mDebugDisplay := mDebugDisplay o;
     mUpperDistance := mUpperDistance o; mMinPixelSize := mMinPixelSize o;
     mRenderQueueID := mRenderQueueID o;
     mRenderQueuePriority := mRenderQueuePriority o;
     mCastShadows := mCastShadows o; mListener := mListener o;
     mLightList := l; mObjectData := mObjectData o;
     mCachedAabbOutOfDate := mCachedAabbOutOfDate o;
     getVisibilityFlags := getVisibilityFlags o;
     getQueryFlags := getQueryFlags o; mLightMask := mLightMask o;
     getBoundingRadius := getBoundingRadius o |}.

Definition set_mRenderQueueID (q : uint8) (o : MovableObject) :=
  {| mId := mId o; mCreator := mCreator o; mManager := mManager o;
     mParentNode := mParentNode o;
     mVisible := mVisible o; mDebugDisplay := mDebugDisplay o;
     mUpperDistance := mUpperDistance o; mMinPixelSize := mMinPixelSize o;
     mRenderQueueID := q;
     mRenderQueuePriority := mRenderQueuePriority o;
     mCastShadows := mCastShadows o; mListener := mListener o;
     mLightList := mLightList o; mObjectData := mObjectData o;
     mCachedAabbOutOfDate := mCachedAabbOutOfDate o;
     getVisibilityFlags := getVisibilityFlags o;
     getQueryFlags := getQueryFlags o; mLightMask := mLightMask o;
     getBoundingRadius := getBoundingRadius o |}.

Definition set_mRenderQueuePriority (p : ushort) (o : MovableObject) :=
  {| mId := mId o; mCreator := mCreator o; mManager := mManager o;
     mParentNode := mParentNode o;
     mVisible := mVisible o; mDebugDisplay := mDebugDisplay o;
     mUpperDistance := mUpperDistance o; mMinPixelSize := mMinPixelSize o;
     mRenderQueueID := mRenderQueueID o;
     mRenderQueuePriority := p;
     mCastShadows := mCastShadows o; mListener := mListener o;
     mLightList := mLightList o; mObjectData := mObjectData o;
     mCachedAabbOutOfDate := mCachedAabbOutOfDate o;
     getVisibilityFlags := getVisibilityFlags o;
     getQueryFlags := getQueryFlags o; mLightMask := mLightMask o;
     getBoundingRadius := getBoundingRadius o |}.

(** Modelled from the spec: [Root] and [SceneManager] are not among the
    sources; the active scene has a combined visibility mask. *)
Record SceneManager : Type := {
  _getCombinedVisibilityMask : uint32
}.

Record Root : Type := {
  _getCurrentSceneManager : option SceneManager;
  getDefaultMinPixelSize : Real
}.

(** The calls made on the single listener. *)
Inductive Event : Type :=
| objectDestroyed (l : ListenerId) (o : ObjId)
| objectAttached (l : ListenerId) (o : ObjId)
| objectDetached (l : ListenerId) (o : ObjId)
| objectMoved (l : ListenerId) (o : ObjId).

(** The heap that the pointers of the translation unit range over. *)
Record World : Type := {
  objects : gmap ObjId MovableObject;
  nodes : gmap NodeId SceneNode;
  lights : list Light;
  events : list Event
}.

(** What [SceneNode] provides and the sources only call. *)
Class SceneGraph : Type := {
  (** [Node::_getFullTransformUpdated]: the full transform of the node
      after bringing it up to date, and the node so updated. *)
  _getFullTransformUpdated : SceneNode → Matrix4 * SceneNode;
  (** [SceneNode::findLights(destList, radius, lightMask)], given the
      light list of the scene; the result is the new [destList]. *)
  findLights : list Light → SceneNode → LightList → Real → uint32 → LightList
}.

(** The hash of one [LightClosest], as [FastHash] over its bytes. *)
Class LightHash : Type := {
  FastHash : LightClosest → uint32 → uint32
}.

Context {SG : SceneGraph} {LH : LightHash}.

(** ** The state-and-fault monad of the member functions *)

Definition M (A : Type) : Type := World → result (A * World).

Global Instance M_ret : MRet M := λ A a w, Ok (a, w).
Global Instance M_bind : MBind M := λ A B f m w,
  match m w with
  | Ok (a, w') => f a w'
  | Fail e => Fail e
  end.

Definition fail {A} (f : Fault) : M A := λ _, Fail f.

Definition liftR {A} (r : result A) : M A := λ w,
  match r with
  | Ok a => Ok (a, w)
  | Fail e => Fail e
  end.

(** [*p] for an object or node pointer [p]. *)
Definition getObject (p : ObjId) : M MovableObject := λ w,
  match objects w !! p with
  | Some o => Ok (o, w)
  | None => Fail NullPointer
  end.

Definition getNode (p : NodeId) : M SceneNode := λ w,
  match nodes w !! p with
  | Some n => Ok (n, w)
  | None => Fail NullPointer
  end.

Definition putObject (p : ObjId) (o : MovableObject) : M unit := λ w,
  Ok ((), {| objects := <[p := o]> (objects w); nodes := nodes w;
             lights := lights w; events := events w |}).

Definition putNode (p : NodeId) (n : SceneNode) : M unit := λ w,
  Ok ((), {| objects := objects w; nodes := <[p := n]> (nodes w);
             lights := lights w; events := events w |}).

Definition getLights : M (list Light) := λ w, Ok (lights w, w).

Definition emit (e : Event) : M unit := λ w,
  Ok ((), {| objects := objects w; nodes := nodes w;
             lights := lights w; events := events w ++ [e] |}).

(** A pointer that the code dereferences without a test. *)
Definition deref {A} (p : option A) : M A :=
  match p with
  | Some a => mret a
  | None => fail NullPointer
  end.

(** ** [OgreMovableObject.cpp] *)

Definition msDefaultQueryFlags : uint32 := 0xFFFFFFFF.
Definition msDefaultVisibilityFlags : uint32 := 0xFFFFFFFF.

(** [MovableObject::MovableObject(IdType id)].  [root] is
    [Root::getSingletonPtr()].  The members that the initialiser list
    does not name keep what the storage [raw] holds; [mLightList] is
    default-constructed. *)
Definition MovableObject_ctor (id : IdType) (root : option Root)
    (raw : MovableObject) : MovableObject :=
  {| mId := id;
     mCreator := None;
     mManager := None;
     mParentNode := None;
     mVisible := true;
     mDebugDisplay := false;
     mUpperDistance := Rmax_value;
     mMinPixelSize := match root with
                      | Some r => getDefaultMinPixelSize r
                      | None => Rzero
                      end;
     mRenderQueueID := RENDER_QUEUE_MAIN;
     mRenderQueuePriority := 100;
     mCastShadows := true;
     mListener := None;
     mLightList := HashedVector.ctor;
     mObjectData := mObjectData raw;
     mCachedAabbOutOfDate := mCachedAabbOutOfDate raw;
     getVisibilityFlags := getVisibilityFlags raw;
     getQueryFlags := getQueryFlags raw;
     mLightMask := mLightMask raw;
     getBoundingRadius := getBoundingRadius raw |}.

(** Modelled from the spec: [isAttached] is defined in the header, which
    is not among the sources; an object is attached when its parent node
    reference is set. *)
Definition isAttached (o : MovableObject) : bool :=
  negb (is_null (mParentNode o)).

Definition _notifyAttached (this : ObjId) (parent : option NodeId) : M unit :=
  o ← getObject this;
  _ ← liftR (assert_ (is_null (mParentNode o) || is_null parent));
  let different := negb (bool_decide (parent = mParentNode o)) in
  (* mParentNode = parent; mObjectData.mParents[mObjectData.mIndex] = parent; *)
  ps ← liftR (arraySet (mParents (mObjectData o)) (mIndex (mObjectData o))
                       parent);
  _ ← putObject this
        (set_mObjectData (set_mParents ps (mObjectData o))
           (set_mParentNode parent o));
  (* Call listener (note, only called if there's something to do) *)
  match mListener o with
  | Some l =>
      if different then
        if is_null parent then emit (objectDetached l this)
        else emit (objectAttached l this)
      else mret ()
  | None => mret ()
  end.

(** Modelled from the spec: [SceneNode::detachObject] is not among the
    sources.  It takes the object out of the node's attached set and
    tells the object that it has no parent any more. *)
Definition detachObject (sn : NodeId) (obj : ObjId) : M unit :=
  node ← getNode sn;
  _ ← putNode sn (set_attachedObjects (attachedObjects node ∖ {[obj]}) node);
  _notifyAttached obj None.

Definition detachFromParent (this : ObjId) : M unit :=
  o ← getObject this;
  if isAttached o then
    sn ← deref (mParentNode o);
    detachObject sn this
  else mret ().

(** Modelled from the spec: [attachTo(node)] (for the code,
    [SceneNode::attachObject]) is not among the sources.  Attaching an
    already-attached object first detaches it from its previous node; then
    the node records the object and the object is told its new parent. *)
Definition attachTo (sn : NodeId) (obj : ObjId) : M unit :=
  _ ← detachFromParent obj;
  node ← getNode sn;
  _ ← putNode sn (set_attachedObjects ({[obj]} ∪ attachedObjects node) node);
  _notifyAttached obj (Some sn).

Definition _notifyMoved (this : ObjId) : M unit :=
  o ← getObject this;
  _ ← putObject this
        (if NDEBUG then o else set_mCachedAabbOutOfDate true o);
  (* Notify listener if exists *)
  match mListener o with
  | Some l => emit (objectMoved l this)
  | None => mret ()
  end.

(** [root] is [Root::getSingleton()]. *)
Definition isVisible (root : Root) (o : MovableObject) : bool :=
  if negb (mVisible o) then false
  else
    match _getCurrentSceneManager root with
    | Some sm =>
        if Z.land (getVisibilityFlags o) (_getCombinedVisibilityMask sm) =? 0
        then false else true
    | None => true
    end.

Definition setRenderQueueGroup (queueID : uint8) (o : MovableObject)
    : result MovableObject :=
  _ ← assert_ (queueID <=? RENDER_QUEUE_MAX);
  mret (set_mRenderQueueID queueID o).

Definition setRenderQueueGroupAndPriority (queueID : uint8) (priority : ushort)
    (o : MovableObject) : result MovableObject :=
  o1 ← setRenderQueueGroup queueID o;
  mret (set_mRenderQueuePriority priority o1).

Definition getRenderQueueGroup (o : MovableObject) : uint8 :=
  mRenderQueueID o.

Definition getWorldAabb (o : MovableObject) : result Aabb :=
  _ ← assert_ (negb (mCachedAabbOutOfDate o));
  arrayGet (mWorldAabb (mObjectData o)) (mIndex (mObjectData o)).

Definition updateSingleWorldAabb (this : ObjId) : M Aabb :=
  o ← getObject this;
  sn ← deref (mParentNode o);
  node ← getNode sn;
  let '(derivedTransform, node') := _getFullTransformUpdated node in
  _ ← putNode sn node';
  retVal ← liftR (arrayGet (mLocalAabb (mObjectData o))
                           (mIndex (mObjectData o)));
  let retVal := transformAffine derivedTransform retVal in
  wa ← liftR (arraySet (mWorldAabb (mObjectData o)) (mIndex (mObjectData o))
                       retVal);
  let o1 := set_mObjectData (set_mWorldAabb wa (mObjectData o)) o in
  _ ← putObject this
        (if NDEBUG then o1 else set_mCachedAabbOutOfDate false o1);
  mret retVal.

Definition getWorldAabbUpdated (this : ObjId) : M Aabb :=
  updateSingleWorldAabb this.

Definition queryLights (this : ObjId) : M LightList :=
  o ← getObject this;
  if negb (is_null (mParentNode o)) then
    sn ← deref (mParentNode o);
    node ← getNode sn;
    let scl := _getDerivedScale node in
    let factor := std_max (std_max (Vector3.x scl) (Vector3.y scl))
                          (Vector3.z scl) in
    all ← getLights;
    let l := findLights all node (mLightList o)
               (Rmul (getBoundingRadius o) factor) (mLightMask o) in
    _ ← putObject this (set_mLightList l o);
    mret l
  else
    let l := HashedVector.clear (mLightList o) in
    _ ← putObject this (set_mLightList l o);
    mret l.

Definition getLightCapBounds (o : MovableObject) : result Aabb :=
  getWorldAabb o.

Definition getLightCapBoundsUpdated (this : ObjId) : M Aabb :=
  getWorldAabbUpdated this.

End scene.

(* ===================================================================== *)
(** * The light query of the design document *)
(* ===================================================================== *)

Section light_query.
Context {Ext : Externals} {LH : LightHash}.

(** Modelled from the spec: [LightClosest::operator<] is declared in
    [OgreCommon.h] and defined outside the sources.  Lights are ordered
    ascending by distance; ties are broken by the global index, the
    lower index first. *)
Definition LightClosest_lt (a b : LightClosest) : bool :=
  Rltb (distance a) (distance b)
  || (negb (Rltb (distance b) (distance a))
      && (globalIndex a <? globalIndex b)%nat).

(** [a] does not come after [b]. *)
Definition LightClosest_le (a b : LightClosest) : Prop :=
  LightClosest_lt b a = false.

Global Instance LightClosest_le_dec : RelDecision LightClosest_le :=
  λ a b, decide (LightClosest_lt b a = false).

(** Modelled from the spec: the distance of a light to the query point is
    the squared distance of the two positions; a directional light has no
    position and counts as distance 0, so that it is always nearest. *)
Definition lightDistance (p : Vector3.t) (l : Light) : Real :=
  match getType l with
  | LT_DIRECTIONAL => Rzero
  | _ => Vector3.squaredDistance (getDerivedPosition l) p
  end.

(** The mask of the light and the mask of the object have a common bit. *)
Definition masksIntersect (a b : uint32) : bool := negb (Z.land a b =? 0).

(** The light lies within [radius] of the query point. *)
Definition withinRadius (radius d : Real) : bool :=
  negb (Rltb (Rmul radius radius) d).

(** Modelled from the spec: the lights of the scene, numbered from [i] on
    by their global index, that pass the mask and radius filters. *)
Fixpoint collectLights (i : nat) (all : list Light) (p : Vector3.t)
    (radius : Real) (mask : uint32) : list LightClosest :=
  match all with
  | [] => []
  | l :: all' =>
      let d := lightDistance p l in
      let rest := collectLights (S i) all' p radius mask in
      if masksIntersect (getLightMask l) mask && withinRadius radius d
      then {| light := Some l; globalIndex := i; distance := d |} :: rest
      else rest
  end.

(** Modelled from the spec: [SceneNode::findLights] is not among the
    sources.  The candidates are sorted, the nearest [maxLights] are kept
    and [destList] is rebuilt from them. *)
Definition findLights_spec (maxLights : nat) (all : list Light)
    (node : SceneNode) (destList : LightList) (radius : Real)
    (mask : uint32) : LightList :=
  foldl (λ v e, HashedVector.push_back FastHash e v)
        (HashedVector.clear destList)
        (take maxLights
           (merge_sort LightClosest_le
              (collectLights 0 all (_getDerivedPosition node) radius mask))).

(** The scene services with the light query of the design document. *)
Definition specSceneGraph (maxLights : nat)
    (fullTransformUpdated : SceneNode → Matrix4 * SceneNode) : SceneGraph :=
  {| _getFullTransformUpdated := fullTransformUpdated;
     findLights := findLights_spec maxLights |}.

End light_query.

(* ===================================================================== *)
(** * A small scene over the integers, to evaluate the statements on *)
(* ===================================================================== *)

Module Sample.

Definition externals : Externals :=
  {| Real := Z;
     Rzero := 0;
     Rmax_value := 340282346638528859811704183484516925440;
     Radd := Z.add; Rsub := Z.sub; Rmul := Z.mul; Rltb := Z.ltb;
     Matrix4 := Z;
     Aabb := Z * Z;
     transformAffine := λ m b, (fst b + m, snd b + m);
     RENDER_QUEUE_MAIN := 50;
     RENDER_QUEUE_MAX := 105;
     NDEBUG := false |}.

#[local] Existing Instance externals.

Definition hashZ (x h : Z) : Z := (33 * h + x + 1) mod 2 ^ 32.

Definition lightHash : LightHash :=
  {| FastHash := λ e h, hashZ (Z.of_nat (globalIndex e) + distance e) h |}.

(** The node answers with a one-entry list that records the radius and
    the mask it was asked with. *)
Definition sceneGraph : SceneGraph :=
  {| _getFullTransformUpdated := λ n, (Vector3.y (_getDerivedScale n), n);
     findLights := λ all _ l radius mask,
       HashedVector.push_back (λ _ h, h)
         {| light := None; globalIndex := Z.to_nat mask; distance := radius |}
         (HashedVector.clear l) |}.

Definition vec (a b c : Z) : Vector3.t := Vector3.Build a b c.

Definition pointLight (px : Z) (mask : Z) : Light :=
  {| getType := LT_POINT; getDerivedPosition := vec px 0 0;
     getLightMask := mask |}.

(** Index 1 is light B and index 2 light A, both at squared distance 25;
    index 5 is light C at squared distance 9.  Lights 0 and 4 carry a
    mask that the sample object does not share; light 3 is far away. *)
Definition someLights : list Light :=
  [ pointLight 1 2; pointLight (-5) 1; pointLight 5 1;
    pointLight 100 1; pointLight 2 2; pointLight 3 3 ].

(** The light query of the design document, capped at two lights. *)
Definition specGraph : SceneGraph :=
  specSceneGraph (LH := lightHash) 2
    (λ n, (Vector3.y (_getDerivedScale n), n)).

Definition node (s : gset nat) : SceneNode :=
  {| _getDerivedPosition := vec 0 0 0;
     _getDerivedScale := vec 2 7 3;
     attachedObjects := s |}.

Definition data (p : option nat) : ObjectData :=
  {| mIndex := 1; mParents := [None; p; None];
     mLocalAabb := [(0, 0); (1, 4); (0, 0)];
     mWorldAabb := [(0, 0); (9, 9); (0, 0)] |}.

Definition object (p : option nat) (stale : bool) : MovableObject :=
  {| mId := 0%nat; mCreator := None; mManager := None;
     mParentNode := p; mVisible := true; mDebugDisplay := false;
     mUpperDistance := Rmax_value; mMinPixelSize := 0;
     mRenderQueueID := 50; mRenderQueuePriority := 100;
     mCastShadows := true; mListener := Some 0%nat;
     mLightList := HashedVector.ctor;
     mObjectData := data p; mCachedAabbOutOfDate := stale;
     getVisibilityFlags := 6; getQueryFlags := 1; mLightMask := 1;
     getBoundingRadius := 2 |}.

(** Object 0 attached to node 0; node 1 is empty. *)
Definition attachedWorld : World :=
  {| objects := {[ 0%nat := object (Some 0%nat) true ]};
     nodes := {[ 0%nat := node {[ 0%nat ]}; 1%nat := node ∅ ]};
     lights := someLights; events := [] |}.

(** Object 0 unattached. *)
Definition detachedWorld : World :=
  {| objects := {[ 0%nat := object None true ]};
     nodes := {[ 0%nat := node ∅; 1%nat := node ∅ ]};
     lights := someLights; events := [] |}.

Definition root (mask : Z) : Root :=
  {| _getCurrentSceneManager := Some {| _getCombinedVisibilityMask := mask |};
     getDefaultMinPixelSize := 0 |}.

End Sample.

(* ===================================================================== *)
(** * Predicates used by the statements *)
(* ===================================================================== *)

Section predicates.
Context {Ext : Externals}.

(** Two masks have no bit in common. *)
Definition noCommonBit (a b : uint32) : Prop :=
  ∀ i, 0 ≤ i → ¬ (Z.testbit a i = true ∧ Z.testbit b i = true).

(** What [_notifyAttached] writes into the object. *)
Definition withParent (parent : option NodeId) (o : MovableObject)
    : MovableObject :=
  set_mObjectData
    (set_mParents (<[mIndex (mObjectData o) := parent]>
                     (mParents (mObjectData o)))
                  (mObjectData o))
    (set_mParentNode parent o).

(** The object's parent pointer, its slot in the column of parents and
    the attached sets of the nodes agree. *)
Definition linked (w : World) (this : ObjId) (o : MovableObject) : Prop :=
  mParents (mObjectData o) !! mIndex (mObjectData o) = Some (mParentNode o)
  ∧ (∀ sn node, nodes w !! sn = Some node →
       this ∈ attachedObjects node ↔ mParentNode o = Some sn)
  ∧ (∀ sn, mParentNode o = Some sn → is_Some (nodes w !! sn)).

(** [linked], as a test that can be run. *)
Definition linkedb (w : World) (this : ObjId) (o : MovableObject) : bool :=
  bool_decide (mParents (mObjectData o) !! mIndex (mObjectData o)
               = Some (mParentNode o))
  && bool_decide (map_Forall
                    (λ sn node, this ∈ attachedObjects node
                                ↔ mParentNode o = Some sn) (nodes w))
  && match mParentNode o with
     | Some sn => bool_decide (is_Some (nodes w !! sn))
     | None => true
     end.

End predicates.

From stdpp Require Import strings pretty.

Local Open Scope Z_scope.

(* ===================================================================== *)
(** * [TRect<T>] *)
(* ===================================================================== *)

(** What the template asks of its scalar [T]: the literal [0], [-], [<]
    and [==]; [a > b] is [b < a].  [Srange] tells the values that an
    object of type [T] can hold. *)
Class Scalar (T : Type) : Type := {
  Szero : T;
  Ssub : T → T → T;
  Sltb : T → T → bool;
  Seqb : T → T → bool;
  Srange : T → Prop
}.

(** The scalars on which [<] is a strict total order, [==] is equality
    and the difference of two values is [0] only when they are equal:
    the integer instantiations, and the floating ones away from NaN and
    signed zeros. *)
Class ScalarLaws (T : Type) {SC : Scalar T} : Prop := {
  Seqb_eq a b : Seqb a b = true ↔ a = b;
  Ssub_zero a b : Srange a → Srange b → Ssub a b = Szero ↔ a = b;
  Sltb_irrefl a : Sltb a a = false;
  Sltb_trans a b c : Sltb a b = true → Sltb b c = true → Sltb a c = true;
  Sltb_total a b : Sltb a b = false → Sltb b a = false → a = b
}.

Module TRect.
Section trect.
Context {T : Type} {SC : Scalar T}.

Record t : Type := Build { left : T; top : T; right : T; bottom : T }.

(** [std::min(a, b)] is [(b < a) ? b : a], [std::max(a, b)] is
    [(a < b) ? b : a]. *)
Definition std_min (a b : T) : T := if Sltb b a then b else a.
Definition std_max (a b : T) : T := if Sltb a b then b else a.

(** [TRect()]. *)
Definition ctor : t := Build Szero Szero Szero Szero.

Definition width (r : t) : T := Ssub (right r) (left r).
Definition height (r : t) : T := Ssub (bottom r) (top r).

Definition isNull (r : t) : bool :=
  Seqb (width r) Szero || Seqb (height r) Szero.

Definition setNull (r : t) : t := Build Szero Szero Szero Szero.


(** [intersect(rhs) const]. *)
Definition intersect (rhs : t) (r : t) : t :=
  if isNull r || isNull rhs then
    (* empty *)
    ctor
  else
    let ret := Build (std_max (left r) (left rhs))
                     (std_max (top r) (top rhs))
                     (std_min (right r) (right rhs))
                     (std_min (bottom r) (bottom rhs)) in
    if Sltb (right ret) (left ret) || Sltb (bottom ret) (top ret) then
      (* no intersection, return empty *)
      Build Szero Szero Szero Szero
    else ret.

(** The point [(x, y)] lies in the closed rectangle. *)
Definition inside (r : t) (x y : T) : Prop :=
  Sltb x (left r) = false ∧ Sltb (right r) x = false
  ∧ Sltb y (top r) = false ∧ Sltb (bottom r) y = false.

(** The rectangle is not inverted. *)
Definition ordered (r : t) : Prop :=
  Sltb (right r) (left r) = false ∧ Sltb (bottom r) (top r) = false.

(** The four members are values of [T]. *)
Definition valid (r : t) : Prop :=
  Srange (left r) ∧ Srange (top r) ∧ Srange (right r) ∧ Srange (bottom r).

End trect.
Arguments t : clear implicits.
End TRect.

(** C++ machine integers: [size_t] and [unsigned long long] are 64 bits
    wide and wrap; [long] is the 64-bit two's complement integer, whose
    overflow, which the language leaves undefined, is taken to wrap. *)
Definition wrap64 (x : Z) : Z := x mod 2 ^ 64.
Definition swrap64 (x : Z) : Z := (x + 2 ^ 63) mod 2 ^ 64 - 2 ^ 63.
Definition in_size_t (x : Z) : Prop := 0 ≤ x < 2 ^ 64.
Definition in_long (x : Z) : Prop := - 2 ^ 63 ≤ x < 2 ^ 63.

(** [typedef TRect<long> Rect]. *)
Definition longScalar : Scalar Z :=
  {| Szero := 0; Ssub := λ a b, swrap64 (a - b);
     Sltb := Z.ltb; Seqb := Z.eqb; Srange := in_long |}.

(* ===================================================================== *)
(** * [struct Box] *)
(* ===================================================================== *)

Module Box.
Section box.
Context {Ext : Externals}.

Record t : Type := Build {
  left : Z; top : Z; right : Z; bottom : Z; front : Z; back : Z
}.

(** [Box()]. *)
Definition ctor : t := Build 0 0 1 1 0 1.

(** [Box(l, t, r, b)]. *)
Definition ctor4 (l t_ r b : Z) : result t :=
  let box := Build l t_ r b 0 1 in
  _ ← assert_ ((left box <=? right box) && (top box <=? bottom box)
               && (front box <=? back box));
  mret box.

(** [Box(l, t, ff, r, b, bb)]. *)
Definition ctor6 (l t_ ff r b bb : Z) : result t :=
  let box := Build l t_ r b ff bb in
  _ ← assert_ ((left box <=? right box) && (top box <=? bottom box)
               && (front box <=? back box));
  mret box.

(** Return true if the other box is a part of this one *)
Definition contains (def : t) (box : t) : bool :=
  (left box <=? left def) && (top box <=? top def)
  && (front box <=? front def)
  && (right def <=? right box) && (bottom def <=? bottom box)
  && (back def <=? back box).

Definition getWidth (box : t) : Z := wrap64 (right box - left box).
Definition getHeight (box : t) : Z := wrap64 (bottom box - top box).
Definition getDepth (box : t) : Z := wrap64 (back box - front box).

(** Every member is a [size_t] and no upper edge lies before its lower
    edge: what the assertion of the constructors checks. *)
Definition wf (box : t) : Prop :=
  in_size_t (left box) ∧ in_size_t (top box) ∧ in_size_t (right box)
  ∧ in_size_t (bottom box) ∧ in_size_t (front box) ∧ in_size_t (back box)
  ∧ left box ≤ right box ∧ top box ≤ bottom box ∧ front box ≤ back box.

End box.
End Box.

(* ===================================================================== *)
(** * [class PixelBox] of [OgrePixelFormat.h] *)
(* ===================================================================== *)

Module PixelBox.
Section pixel_box.
Context {Ext : Externals}.

(** [PixelFormat] and the data pointer are carried along and not looked
    into. *)
Record t : Type := Build {
  box : Box.t;
  data : option nat;
  format : nat;
  rowPitch : Z;
  slicePitch : Z
}.

Definition setConsecutive (p : t) : t :=
  let rowPitch' := Box.getWidth (box p) in
  Build (box p) (data p) (format p) rowPitch'
        (wrap64 (Box.getWidth (box p) * Box.getHeight (box p))).

(** [PixelBox(const Box &extents, PixelFormat pixelFormat, void *pixelData)];
    [garbage] is what the storage of the two pitches held. *)
Definition ctor_box (extents : Box.t) (pixelFormat : nat)
    (pixelData : option nat) (garbage : Z * Z) : t :=
  setConsecutive (Build extents pixelData pixelFormat
                        (fst garbage) (snd garbage)).

(** [PixelBox(width, height, depth, pixelFormat, pixelData)]. *)
Definition ctor_whd (width height depth : Z) (pixelFormat : nat)
    (pixelData : option nat) (garbage : Z * Z) : result t :=
  extents ← Box.ctor6 0 0 0 width height depth;
  mret (setConsecutive (Build extents pixelData pixelFormat
                              (fst garbage) (snd garbage))).

Definition getRowSkip (p : t) : Z :=
  wrap64 (rowPitch p - Box.getWidth (box p)).

Definition getSliceSkip (p : t) : Z :=
  wrap64 (slicePitch p - wrap64 (Box.getHeight (box p) * rowPitch p)).

Definition isConsecutive (p : t) : bool :=
  (rowPitch p =? Box.getWidth (box p))
  && (slicePitch p =? wrap64 (Box.getWidth (box p) * Box.getHeight (box p))).

End pixel_box.
End PixelBox.

(* ===================================================================== *)
(** * [NameGenerator], [Pool<T>], [efficientVectorRemove] *)
(* ===================================================================== *)

(** The locks of [OGRE_AUTO_MUTEX] serialise the calls; each member
    function is modelled as one step. *)
Module NameGenerator.

Record t : Type := Build {
  mPrefix : string;
  (** [unsigned long long int] *)
  mNext : Z
}.

(** [NameGenerator(const String& prefix)]. *)
Definition ctor (prefix : string) : t := Build prefix 1.

(** [NameGenerator(const NameGenerator& rhs)]. *)
Definition ctor_copy (rhs : t) : t := Build (mPrefix rhs) (mNext rhs).

(** [s << mNext]: the decimal digits of the counter. *)
Definition decimal (n : Z) : string := pretty (Z.to_N n).

(** [generate()]: [s << mPrefix << mNext++], the name and the generator
    after the call. *)
Definition generate (g : t) : string * t :=
  (mPrefix g +:+ decimal (mNext g),
   Build (mPrefix g) (wrap64 (mNext g + 1))).

Definition reset (g : t) : t := Build (mPrefix g) 1.

Definition setNext (val : Z) (g : t) : t := Build (mPrefix g) val.

Definition getNext (g : t) : Z := mNext g.

(** [n] calls of [generate] in a row: the names, first call first. *)
Fixpoint generateMany (n : nat) (g : t) : list string * t :=
  match n with
  | O => ([], g)
  | S n' =>
      let '(name, g1) := generate g in
      let '(names, g2) := generateMany n' g1 in
      (name :: names, g2)
  end.

End NameGenerator.

Module Pool.
Section pool.
Context {T : Type}.

(** [T()], the second component of a default-constructed [std::pair]. *)
Variable T_default : T.

(** [mItems], a [std::list<T>]. *)
Definition t : Type := list T.

(** [Pool()]. *)
Definition ctor : t := [].

(** [removeItem()]: the pair returned and the pool after the call. *)
Definition removeItem (p : t) : (bool * T) * t :=
  match p with
  | [] => ((false, T_default), p)
  | front :: rest => ((true, front), rest)
  end.

Definition addItem (i : T) (p : t) : t := i :: p.

Definition clear (p : t) : t := [].

(** [n] calls of [removeItem] in a row. *)
Fixpoint removeMany (n : nat) (p : t) : list (bool * T) * t :=
  match n with
  | O => ([], p)
  | S n' =>
      let '(r, p1) := removeItem p in
      let '(rs, p2) := removeMany n' p1 in
      (r :: rs, p2)
  end.

End pool.
End Pool.

(** [efficientVectorRemove(container, iterator)]: the container after the
    call and the iterator returned, as indices.  An iterator that does
    not point at an element cannot be assigned through: [None]. *)
Definition efficientVectorRemove {T} (container : list T) (iterator : nat)
    : option (list T * nat) :=
  let idx := iterator in
  match container !! idx, last container with
  | Some _, Some back =>
      (* *iterator = container.back(); container.pop_back(); *)
      let container1 := <[idx := back]> container in
      Some (take (length container1 - 1) container1, idx)
  | _, _ => None
  end.

(* ===================================================================== *)
(** * More of [OgreMovableObject.cpp] *)
(* ===================================================================== *)

Section movable_object_more.
Context {Ext : Externals}.

(** [getTypeFlags()]; [factoryTypeFlags] is the virtual
    [MovableObjectFactory::getTypeFlags] of each factory. *)
Definition getTypeFlags (factoryTypeFlags : FactoryId → uint32)
    (o : MovableObject) : uint32 :=
  match mCreator o with
  | Some creator => factoryTypeFlags creator
  | None => 0xFFFFFFFF
  end.

(** What [MORecvShadVisitor::visit] reads of a renderable: its technique,
    if any, and whether the material of that technique receives shadows
    ([tech->getParent()->getReceiveShadows()]). *)
Record Technique : Type := { getParent_getReceiveShadows : bool }.
Record Renderable : Type := { getTechnique : option Technique }.

(** [MORecvShadVisitor]: the member [anyReceiveShadows]. *)
Definition MORecvShadVisitor : Type := bool.

(** [MORecvShadVisitor()]. *)
Definition MORecvShadVisitor_ctor : MORecvShadVisitor := false.

(** [MORecvShadVisitor::visit]. *)
Definition visit (rend : Renderable) (anyReceiveShadows : MORecvShadVisitor)
    : MORecvShadVisitor :=
  let tech := getTechnique rend in
  let techReceivesShadows :=
    match tech with
    | Some t => getParent_getReceiveShadows t
    | None => false
    end in
  anyReceiveShadows || techReceivesShadows || is_null tech.

(** [getReceivesShadows()]; [renderables] are the renderables that the
    virtual [visitRenderables] hands to the visitor, in its order. *)
Definition getReceivesShadows (renderables : list Renderable) : bool :=
  foldl (λ visitor rend, visit rend visitor) MORecvShadVisitor_ctor
        renderables.

End movable_object_more.

(* ===================================================================== *)
(** * [Volume::MeshBuilder] of [OgreVolumeMeshBuilder.h] *)
(* ===================================================================== *)

Module MeshBuilder.
Section mesh_builder.
Context {Ext : Externals}.

(** [struct Vertex]. *)
Record Vertex : Type := {
  x : Real; y : Real; z : Real;
  nX : Real; nY : Real; nZ : Real
}.

(** [Vertex(const Vector3 &v, const Vector3 &n)]. *)
Definition Vertex_ctor (v n : Vector3.t) : Vertex :=
  {| x := Vector3.x v; y := Vector3.y v; z := Vector3.z v;
     nX := Vector3.x n; nY := Vector3.y n; nZ := Vector3.z n |}.

(** [struct Triangle]. *)
Record Triangle : Type := { mV1 : Vertex; mV2 : Vertex; mV3 : Vertex }.

Definition Triangle_ctor (v1 n1 v2 n2 v3 n3 : Vector3.t) : Triangle :=
  {| mV1 := Vertex_ctor v1 n1; mV2 := Vertex_ctor v2 n2;
     mV3 := Vertex_ctor v3 n3 |}.

(** [operator<(const Vertex&, const Vertex&)], the order of the keys of
    [UMapVertexIndex]: declared in the header, defined outside the
    sources. *)
Class VertexOrder : Type := { Vertex_lt : Vertex → Vertex → bool }.
Context {VO : VertexOrder}.

(** Two keys that a [std::map] does not tell apart: neither is less. *)
Definition sameKey (a b : Vertex) : bool :=
  negb (Vertex_lt a b) && negb (Vertex_lt b a).

(** [UMapVertexIndex], a [std::map<Vertex, size_t>], as its entries in
    the order of insertion.  A key is looked up by searching for an entry
    whose key is equivalent to it, which is what the map finds when
    [operator<] is a strict weak order. *)
Definition UMapVertexIndex : Type := list (Vertex * nat).

(** [mIndexMap.find(v)], and [mIndexMap[v]] on a key that is present. *)
Fixpoint find (v : Vertex) (m : UMapVertexIndex) : option nat :=
  match m with
  | [] => None
  | (k, i) :: m' => if sameKey k v then Some i else find v m'
  end.

(** [AxisAlignedBox], as far as [addVertex] uses it: the two corners and
    the setters of a corner or of one of its components.  The class is
    not among the sources. *)
Record AxisAlignedBox : Type := {
  getMinimum : Vector3.t;
  getMaximum : Vector3.t
}.

Definition setExtents (mx my mz Mx My Mz : Real) (b : AxisAlignedBox)
    : AxisAlignedBox :=
  {| getMinimum := Vector3.Build mx my mz;
     getMaximum := Vector3.Build Mx My Mz |}.

Definition setMinimumX (v : Real) (b : AxisAlignedBox) : AxisAlignedBox :=
  {| getMinimum := Vector3.Build v (Vector3.y (getMinimum b))
                                 (Vector3.z (getMinimum b));
     getMaximum := getMaximum b |}.
Definition setMinimumY (v : Real) (b : AxisAlignedBox) : AxisAlignedBox :=
  {| getMinimum := Vector3.Build (Vector3.x (getMinimum b)) v
                                 (Vector3.z (getMinimum b));
     getMaximum := getMaximum b |}.
Definition setMinimumZ (v : Real) (b : AxisAlignedBox) : AxisAlignedBox :=
  {| getMinimum := Vector3.Build (Vector3.x (getMinimum b))
                                 (Vector3.y (getMinimum b)) v;
     getMaximum := getMaximum b |}.
Definition setMaximumX (v : Real) (b : AxisAlignedBox) : AxisAlignedBox :=
  {| getMinimum := getMinimum b;
     getMaximum := Vector3.Build v (Vector3.y (getMaximum b))
                                 (Vector3.z (getMaximum b)) |}.
Definition setMaximumY (v : Real) (b : AxisAlignedBox) : AxisAlignedBox :=
  {| getMinimum := getMinimum b;
     getMaximum := Vector3.Build (Vector3.x (getMaximum b)) v
                                 (Vector3.z (getMaximum b)) |}.
Definition setMaximumZ (v : Real) (b : AxisAlignedBox) : AxisAlignedBox :=
  {| getMinimum := getMinimum b;
     getMaximum := Vector3.Build (Vector3.x (getMaximum b))
                                 (Vector3.y (getMaximum b)) v |}.

(** The members of [MeshBuilder]. *)
Record t : Type := Build {
  mIndexMap : UMapVertexIndex;
  mVertices : list Vertex;
  mIndices : list nat;
  mBox : AxisAlignedBox;
  mBoxInit : bool
}.


(** The part of [addVertex] under "Update bounding box". *)
Definition updateBox (v : Vertex) (initialised : bool) (box : AxisAlignedBox)
    : AxisAlignedBox :=
  if negb initialised then
    setExtents (x v) (y v) (z v) (x v) (y v) (z v) box
  else
    let box := if Rltb (x v) (Vector3.x (getMinimum box))
               then setMinimumX (x v) box else box in
    let box := if Rltb (y v) (Vector3.y (getMinimum box))
               then setMinimumY (y v) box else box in
    let box := if Rltb (z v) (Vector3.z (getMinimum box))
               then setMinimumZ (z v) box else box in
    let box := if Rltb (Vector3.x (getMaximum box)) (x v)
               then setMaximumX (x v) box else box in
    let box := if Rltb (Vector3.y (getMaximum box)) (y v)
               then setMaximumY (y v) box else box in
    let box := if Rltb (Vector3.z (getMaximum box)) (z v)
               then setMaximumZ (z v) box else box in
    box.

Definition addVertex (v : Vertex) (b : t) : t :=
  match find v (mIndexMap b) with
  | None =>
      let i := length (mVertices b) in
      Build (mIndexMap b ++ [(v, i)]) (mVertices b ++ [v])
            (mIndices b ++ [i])
            (updateBox v (mBoxInit b) (mBox b)) true
  | Some i =>
      Build (mIndexMap b) (mVertices b) (mIndices b ++ [i])
            (mBox b) (mBoxInit b)
  end.

Definition addTriangle (tr : Triangle) (b : t) : t :=
  addVertex (mV3 tr) (addVertex (mV2 tr) (addVertex (mV1 tr) b)).

(** The index map, the vertices and the indices fit together: every map
    entry points at its own key, every vertex has its entry, and every
    index points at a vertex. *)
Definition consistent (b : t) : Prop :=
  (∀ k i, (k, i) ∈ mIndexMap b → mVertices b !! i = Some k)
  ∧ (∀ i k, mVertices b !! i = Some k → (k, i) ∈ mIndexMap b)
  ∧ (∀ j i, mIndices b !! j = Some i → (i < length (mVertices b))%nat).

(** No two stored vertices are the same key. *)
Definition distinctKeys (b : t) : Prop :=
  ∀ i j a c, (i < j)%nat → mVertices b !! i = Some a →
    mVertices b !! j = Some c → sameKey a c = false.



End mesh_builder.
End MeshBuilder.

(** [MeshBuilder::addCubeToManualObject].  Of [ManualObject], which is
    not among the sources, the call uses [position] and [index]; they are
    taken to append to the vertices and to the indices of the object. *)
Module ManualCube.
Section manual_cube.
Context {Ext : Externals}.

Record ManualObject : Type := Build {
  positions : list Vector3.t;
  indices : list Z
}.

Definition position (c : Vector3.t) (m : ManualObject) : ManualObject :=
  Build (positions m ++ [c]) (indices m).

Definition index (i : Z) (m : ManualObject) : ManualObject :=
  Build (positions m) (indices m ++ [i]).

(** One line of the source: two calls of [index]. *)
Definition edge (baseIndex a b : Z) (m : ManualObject) : ManualObject :=
  index (wrap64 (baseIndex + b)) (index (wrap64 (baseIndex + a)) m).

(** The manual object and [baseIndex] after the call. *)
Definition addCubeToManualObject (manual : ManualObject)
    (c0 c1 c2 c3 c4 c5 c6 c7 : Vector3.t) (baseIndex : Z)
    : ManualObject * Z :=
  let m := position c0 manual in
  let m := position c1 m in
  let m := position c2 m in
  let m := position c3 m in
  let m := position c4 m in
  let m := position c5 m in
  let m := position c6 m in
  let m := position c7 m in
  let m := edge baseIndex 0 1 m in
  let m := edge baseIndex 1 2 m in
  let m := edge baseIndex 2 3 m in
  let m := edge baseIndex 3 0 m in
  let m := edge baseIndex 4 5 m in
  let m := edge baseIndex 5 6 m in
  let m := edge baseIndex 6 7 m in
  let m := edge baseIndex 7 4 m in
  let m := edge baseIndex 0 4 m in
  let m := edge baseIndex 1 5 m in
  let m := edge baseIndex 2 6 m in
  let m := edge baseIndex 3 7 m in
  (m, wrap64 (baseIndex + 8)).

(** Every index of the object names one of its positions, and
    [baseIndex] is the number of positions. *)
Definition cubeInv (m : ManualObject) (baseIndex : Z) : Prop :=
  baseIndex = Z.of_nat (length (positions m))
  ∧ Forall (λ i, 0 ≤ i < Z.of_nat (length (positions m))) (indices m).

End manual_cube.
End ManualCube.

(* ===================================================================== *)
(** * [GL3PlusTexture::getGLID] of [OgreGL3PlusTexture.h] *)
(* ===================================================================== *)

Module GL3PlusTexture.

(** What [getGLID] reads and changes of a render target:
    [isFsaaResolveDirty()], and the multisample frame buffer id that
    [getCustomAttribute("GL_MULTISAMPLEFBOID", ...)] writes. *)
Record RenderTarget : Type := {
  isFsaaResolveDirty : bool;
  multisampleFboId : Z
}.

(** [RenderTarget::swapBuffers(false)], defined outside the sources. *)
Class RenderTargetOps : Type := { swapBuffers : RenderTarget → RenderTarget }.

(** The members that [getGLID] reads; each surface of [mSurfaceList]
    stands for the render target that [getRenderTarget()] gives. *)
Record t : Type := Build {
  mTextureID : Z;
  mFSAA : Z;
  mFsaaExplicitResolve : bool;
  mNumMipmaps : nat;
  getNumFaces : nat;
  mSurfaceList : list RenderTarget
}.

Section get_glid.
Context {RTO : RenderTargetOps}.

(** The [for] loop over the faces, from [face] on. *)
Fixpoint resolveFaces (count face : nat) (numMipmaps : nat)
    (surfaces : list RenderTarget) : result (list RenderTarget) :=
  match count with
  | O => Ok surfaces
  | S count' =>
      renderTarget ← arrayGet surfaces (face * (numMipmaps + 1))%nat;
      let surfaces1 :=
        if isFsaaResolveDirty renderTarget
        then <[(face * (numMipmaps + 1))%nat := swapBuffers renderTarget]>
               surfaces
        else surfaces in
      resolveFaces count' (S face) numMipmaps surfaces1
  end.

(** A render target after the loop has visited it: [swapBuffers] is
    called when it is unresolved. *)
Definition resolved (rt : RenderTarget) : RenderTarget :=
  if isFsaaResolveDirty rt then swapBuffers rt else rt.

(** [getGLID(bool &outIsFsaa) const]: the value returned, [outIsFsaa],
    the local [retVal] at the end of the function, and the texture with
    the render targets as the call leaves them. *)
Definition getGLID (tex : t) : result (Z * bool * Z * t) :=
  let retVal := mTextureID tex in
  let isFsaa := false in
  if 0 <? mFSAA tex then
    renderTarget ← arrayGet (mSurfaceList tex) 0%nat;
    if negb (mFsaaExplicitResolve tex) then
      surfaces ← resolveFaces (getNumFaces tex) 0 (mNumMipmaps tex)
                              (mSurfaceList tex);
      mret (mTextureID tex, isFsaa, retVal,
            Build (mTextureID tex) (mFSAA tex) (mFsaaExplicitResolve tex)
                  (mNumMipmaps tex) (getNumFaces tex) surfaces)
    else if isFsaaResolveDirty renderTarget then
      (* GL 3.3+ supports explicit resolves. Only use the
         Fsaa texture before it has been resolved *)
      let retVal := multisampleFboId renderTarget in
      let isFsaa := true in
      mret (mTextureID tex, isFsaa, retVal, tex)
    else mret (mTextureID tex, isFsaa, retVal, tex)
  else mret (mTextureID tex, isFsaa, retVal, tex).

End get_glid.
End GL3PlusTexture.

(* ===================================================================== *)
(** * The sample scene in either build *)
(* ===================================================================== *)

Module SampleBuild.

(** The externals of [Sample], with the build left open. *)
Definition externals (ndebug : bool) : Externals :=
  {| Real := Z;
     Rzero := 0;
     Rmax_value := 340282346638528859811704183484516925440;
     Radd := Z.add; Rsub := Z.sub; Rmul := Z.mul; Rltb := Z.ltb;
     Matrix4 := Z;
     Aabb := Z * Z;
     transformAffine := λ m b, (fst b + m, snd b + m);
     RENDER_QUEUE_MAIN := 50;
     RENDER_QUEUE_MAX := 105;
     NDEBUG := ndebug |}.

Section sample_build.
Variable ndebug : bool.

Definition data (p : option nat) : ObjectData (Ext := externals ndebug) :=
  @Build_ObjectData (externals ndebug) 1 [None; p; None]
    [(0, 0); (1, 4); (0, 0)] [(0, 0); (9, 9); (0, 0)].

Definition object (p : option nat) (listener : option nat)
    : MovableObject (Ext := externals ndebug) :=
  @Build_MovableObject (externals ndebug)
    0%nat None None p true false
    340282346638528859811704183484516925440 0
    50 100 true listener HashedVector.ctor (data p) false 6 1 1 2.

Definition node (s : gset nat) : SceneNode (Ext := externals ndebug) :=
  @Build_SceneNode (externals ndebug)
    (@Vector3.Build (externals ndebug) 0 0 0)
    (@Vector3.Build (externals ndebug) 2 7 3) s.

(** Object 0, with listener 7, attached to node 0 or to no node. *)
Definition world (p : option nat) : World (Ext := externals ndebug) :=
  {| objects := {[ 0%nat := object p (Some 7%nat) ]};
     nodes := {[ 0%nat := node (if is_null p then ∅ else {[ 0%nat ]});
                 1%nat := node ∅ ]};
     lights := []; events := [] |}.

End sample_build.
End SampleBuild.

(** A mesh builder over the integers: vertices ordered as the lists of
    their six members, and the builder before the first vertex. *)
Module SampleMesh.

Fixpoint listLt (a b : list Z) : bool :=
  match a, b with
  | x :: a', y :: b' => (x <? y) || ((x =? y) && listLt a' b')
  | [], _ :: _ => true
  | _, _ => false
  end.

Definition members (v : MeshBuilder.Vertex (Ext := Sample.externals))
    : list Z :=
  [MeshBuilder.x v; MeshBuilder.y v; MeshBuilder.z v;
   MeshBuilder.nX v; MeshBuilder.nY v; MeshBuilder.nZ v].

Definition vertexOrder : MeshBuilder.VertexOrder (Ext := Sample.externals) :=
  {| MeshBuilder.Vertex_lt := λ a b, listLt (members a) (members b) |}.

Definition vertex (px py pz : Z)
    : MeshBuilder.Vertex (Ext := Sample.externals) :=
  @MeshBuilder.Build_Vertex Sample.externals px py pz 0 0 1.

Definition emptyBuilder : MeshBuilder.t (Ext := Sample.externals) :=
  MeshBuilder.Build [] [] []
    (@MeshBuilder.Build_AxisAlignedBox Sample.externals
       (@Vector3.Build Sample.externals 0 0 0)
       (@Vector3.Build Sample.externals 0 0 0))
    false.

(** Two triangles that share an edge. *)
Definition twoTriangles
    : list (MeshBuilder.Triangle (Ext := Sample.externals)) :=
  [ MeshBuilder.Build_Triangle (vertex 0 0 0) (vertex 4 0 0) (vertex 0 3 0);
    MeshBuilder.Build_Triangle (vertex 4 0 0) (vertex 4 3 (-2))
                               (vertex 0 3 0) ].

End SampleMesh.
(* ===================================================================== *)
(** * Properties of [HashedVector] *)
(* ===================================================================== *)

Module HashedVectorFacts.
Import HashedVector.

Section facts.
Context {T : Type} (FastHash : T → uint32 → uint32).

Local Abbreviation hash_from := (HashedVector.hash_from FastHash).
Local Abbreviation coherent := (HashedVector.coherent FastHash).
Local Abbreviation in_sync := (HashedVector.in_sync FastHash).
Local Abbreviation push_back := (HashedVector.push_back FastHash).
Local Abbreviation insert := (HashedVector.insert FastHash).
Local Abbreviation apply := (HashedVector.apply FastHash).
Local Abbreviation run := (HashedVector.run FastHash).
Local Abbreviation getHash := (HashedVector.getHash FastHash).
Local Abbreviation operand_coherent := (HashedVector.operand_coherent FastHash).

Implicit Types (v rhs : t T) (x : T) (l : list T) (h : uint32).

Lemma hash_from_app h l1 l2 :
  hash_from h (l1 ++ l2) = hash_from (hash_from h l1) l2.
Proof. revert h. induction l1 as [|x l1 IH]; intros h; simpl; auto. Qed.

Lemma hash_from_snoc h l x :
  hash_from h (l ++ [x]) = FastHash x (hash_from h l).
Proof. by rewrite hash_from_app. Qed.

Lemma coherent_dirty v : isHashDirty v = true → coherent v.
Proof. intros Hd Hc. congruence. Qed.

Lemma coherent_ctor : coherent ctor.
Proof. intros _. reflexivity. Qed.

Lemma coherent_ctor_fill n x : coherent (ctor_fill n x).
Proof.
  intros Hd. unfold isHashDirty in Hd. simpl in Hd.
  apply bool_decide_eq_false in Hd.
  assert (n = 0%nat) as -> by lia. reflexivity.
Qed.

Lemma coherent_ctor_range g l : coherent (ctor_range g l).
Proof. by apply coherent_dirty. Qed.

Lemma coherent_push_back x v : coherent v → coherent (push_back x v).
Proof.
  unfold HashedVector.coherent, HashedVector.in_sync, HashedVector.push_back,
    isHashDirty. simpl.
  destruct (mListHashDirty v) eqn:Hd; simpl; intros Hc Hd'; [congruence|].
  rewrite hash_from_snoc, <- Hc; auto.
Qed.

Lemma coherent_insert pos x v v' :
  insert pos x v = Some v' → coherent v → coherent v'.
Proof.
  unfold HashedVector.insert. case_decide as Hpos; [|done].
  intros [= <-] Hc. case_bool_decide as Hend; simpl.
  - subst pos. unfold size. rewrite take_ge, drop_ge by lia.
    unfold HashedVector.coherent, HashedVector.in_sync, isHashDirty.
    simpl. intros Hd. rewrite hash_from_snoc, <- Hc; auto.
  - by apply coherent_dirty.
Qed.

Lemma coherent_resize n x v : coherent v → coherent (resize n x v).
Proof.
  unfold resize. intros Hc. case_bool_decide as Hn; simpl.
  - subst n. unfold size. rewrite take_ge, Nat.sub_diag by lia. simpl.
    rewrite app_nil_r. by destruct v.
  - by apply coherent_dirty.
Qed.

Lemma apply_coherent o v v' :
  operand_coherent o → apply o v = Some v' → coherent v → coherent v'.
Proof.
  destruct o; simpl; intros Ho Hap Hc.
  - injection Hap as <-. by apply coherent_dirty.
  - unfold store in Hap. case_decide; [|done]. injection Hap as <-.
    by apply coherent_dirty.
  - injection Hap as <-. by destruct rhs.
  - injection Hap as <-. by apply coherent_push_back.
  - unfold pop_back in Hap. destruct (mList v); [done|].
    injection Hap as <-. by apply coherent_dirty.
  - injection Hap as <-. by apply coherent_dirty.
  - by eapply coherent_insert.
  - unfold insert_range in Hap. case_decide; [|done]. injection Hap as <-.
    by apply coherent_dirty.
  - unfold insert_n in Hap. case_decide; [|done]. injection Hap as <-.
    by apply coherent_dirty.
  - unfold erase in Hap. case_decide; [|done]. injection Hap as <-.
    by apply coherent_dirty.
  - unfold erase_range in Hap. case_decide; [|done]. injection Hap as <-.
    by apply coherent_dirty.
  - injection Hap as <-. apply coherent_ctor.
  - injection Hap as <-. by apply coherent_resize.
Qed.

Lemma apply_dirties o v v' :
  skips_dirtyHash o v = false → apply o v = Some v' → isHashDirty v' = true.
Proof.
  destruct o; simpl; intros Hk Hap; try discriminate.
  - by injection Hap as <-.
  - unfold store in Hap. case_decide; [|done]. by injection Hap as <-.
  - unfold pop_back in Hap. destruct (mList v); [done|].
    by injection Hap as <-.
  - by injection Hap as <-.
  - unfold HashedVector.insert in Hap. case_decide; [|done].
    injection Hap as <-. by rewrite Hk.
  - unfold insert_range in Hap. case_decide; [|done].
    by injection Hap as <-.
  - unfold insert_n in Hap. case_decide; [|done]. by injection Hap as <-.
  - unfold erase in Hap. case_decide; [|done]. by injection Hap as <-.
  - unfold erase_range in Hap. case_decide; [|done].
    by injection Hap as <-.
  - injection Hap as <-. unfold resize. by rewrite Hk.
Qed.

Lemma getHash_dirty v :
  isHashDirty v = true →
  getHash v = (hash_from 0 (mList v),
               Build (mList v) (hash_from 0 (mList v)) false).
Proof. unfold HashedVector.getHash. by intros ->. Qed.

Lemma getHash_coherent v :
  coherent v → fst (getHash v) = hash_from 0 (mList v).
Proof.
  unfold HashedVector.getHash. destruct (isHashDirty v) eqn:Hd; simpl; [done|].
  intros Hc. by apply Hc.
Qed.

Lemma run_coherent os v v' :
  Forall operand_coherent os → run os v = Some v' → coherent v → coherent v'.
Proof.
  intros Hos. revert v. induction Hos as [|o os Ho _ IH]; intros v; simpl.
  - by intros [= <-].
  - destruct (apply o v) as [v1|] eqn:Hap; [|done].
    intros Hrun Hc. eapply IH; [done|]. by eapply apply_coherent.
Qed.

(** Whatever sequence of mutations built the list, starting from the
    empty one, the hash that [getHash] reports is the hash of the
    elements the list holds. *)
Lemma getHash_after_run os v :
  Forall operand_coherent os → run os ctor = Some v →
  fst (getHash v) = hash_from 0 (mList v).
Proof.
  intros Hos Hrun. apply getHash_coherent.
  eapply run_coherent; [done..|apply coherent_ctor].
Qed.

(** [foldl push_back] appends. *)
Lemma mList_foldl_push_back l v :
  mList (foldl (λ u e, push_back e u) v l) = mList v ++ l.
Proof.
  revert v. induction l as [|x l IH]; intros v; simpl.
  - by rewrite app_nil_r.
  - rewrite IH. unfold HashedVector.push_back. simpl.
    destruct (negb _); simpl; by rewrite <- app_assoc.
Qed.

(** C7 (amended): a mutating operation of the hashed vector either marks
    the list hash-dirty or, on the paths that skip [dirtyHash]
    (push_back, a single-element insert at end(), clear, assignment, a
    resize to the current size), keeps the invariant that a list not
    flagged dirty stores the hash of its current elements; and a getHash
    on a dirty list recomputes the hash over all current elements, stores
    it, clears the flag and returns it, so that after the operation
    getHash reports the hash of the current elements. *)
Theorem mutation_keeps_hash_coherent o v v' :
  operand_coherent o → coherent v → apply o v = Some v' →
  (skips_dirtyHash o v = false → isHashDirty v' = true)
  ∧ coherent v'
  ∧ (∀ u : t T, isHashDirty u = true →
       getHash u = (hash_from 0 (mList u),
                    Build (mList u) (hash_from 0 (mList u)) false))
  ∧ fst (getHash v') = hash_from 0 (mList v').
Proof.
  intros Ho Hc Hap.
  assert (coherent v') as Hc' by by eapply apply_coherent.
  split_and!.
  - intros Hk. by eapply apply_dirties.
  - done.
  - apply getHash_dirty.
  - by apply getHash_coherent.
Qed.

(** C9: [operator==] is decided by the two stored hash values alone: the
    elements and the dirty flags play no part and no hash is recomputed.
    Two lists with the same elements compare unequal when one stored hash
    is stale, and two lists with different elements compare equal when
    the stored hashes coincide. *)
Theorem op_eq_compares_stored_hashes (x y : T) (a b : t T) :
  FastHash x 0 ≠ 0 → x ≠ y →
  (op_eq a b = true ↔ mListHash a = mListHash b)
  ∧ (∀ (la lb : list T) da db,
       op_eq (Build la (mListHash a) da) (Build lb (mListHash b) db)
       = op_eq a b)
  ∧ (let a1 := push_back x ctor in
     let b1 := ctor_fill 1 x in
     mList a1 = mList b1 ∧ isHashDirty b1 = true ∧ op_eq a1 b1 = false
     ∧ fst (getHash a1) = fst (getHash b1))
  ∧ (let a2 := ctor_fill 1 x in
     let b2 := ctor_fill 1 y in
     mList a2 ≠ mList b2 ∧ isHashDirty a2 = true ∧ op_eq a2 b2 = true).
Proof.
  intros Hx Hxy. split_and!.
  - unfold op_eq. apply bool_decide_eq_true.
  - done.
  - simpl. split_and!; try done.
    unfold op_eq. simpl. by apply bool_decide_eq_false.
  - simpl. split_and!; try done. congruence.
Qed.

End facts.

(** C7, as stated, fails: [push_back] on a list that is not dirty adds
    the element to the hash and leaves the flag clear. *)
Lemma push_back_leaves_flag_clear :
  isHashDirty (ctor (T := Z)) = false
  ∧ apply Sample.hashZ (OpPushBack 7) ctor = Some (Build [7] 8 false)
  ∧ isHashDirty (Build [7] 8 false) = false.
Proof. by vm_compute. Qed.

Lemma mutation_keeps_hash_coherent_witness :
  let v := push_back Sample.hashZ 7 ctor in
  fst (getHash Sample.hashZ v) = hash_from Sample.hashZ 0 (mList v)
  ∧ apply Sample.hashZ (OpErase 0) v = Some (Build [] 8 true)
  ∧ fst (getHash Sample.hashZ (Build [] 8 true)) = 0.
Proof.
  intros v.
  pose proof (mutation_keeps_hash_coherent Sample.hashZ (OpErase 0) v
                (Build [] 8 true) I
                (coherent_push_back _ 7 _ (coherent_ctor _)) eq_refl)
    as (_ & _ & _ & Hget).
  split; [by vm_compute|]. split; [by vm_compute|]. exact Hget.
Defined.

Lemma op_eq_compares_stored_hashes_witness :
  let a1 := push_back Sample.hashZ 7 ctor in
  let b1 := ctor_fill 1 7 in
  Sample.hashZ 7 0 ≠ 0 ∧ 7 ≠ 8
  ∧ mList a1 = mList b1 ∧ op_eq a1 b1 = false
  ∧ op_eq (ctor_fill 1 7) (ctor_fill 1 8) = true.
Proof.
  assert (Sample.hashZ 7 0 ≠ 0) as H1 by (by vm_compute).
  assert (7 ≠ 8) as H2 by lia.
  pose proof (op_eq_compares_stored_hashes Sample.hashZ 7 8 ctor ctor H1 H2)
    as (_ & _ & (Ha & _ & Hb & _) & (_ & _ & Hc)).
  split_and!; [exact H1 | exact H2 | exact Ha | exact Hb | exact Hc].
Defined.

(** [swap] marks only [*this]: the argument receives new elements and
    keeps both its stored hash and a clear flag, so its [getHash] reports
    a hash that is not the hash of its elements. *)
Lemma swap_leaves_argument_stale :
  let v := push_back Sample.hashZ 1 ctor in
  let rhs' := snd (swap ctor v) in
  mList rhs' = [1] ∧ isHashDirty rhs' = false
  ∧ fst (getHash Sample.hashZ rhs') = 0
  ∧ hash_from Sample.hashZ 0 (mList rhs') = 2.
Proof. by vm_compute. Qed.

End HashedVectorFacts.

(* ===================================================================== *)
(** * Properties of [MovableObject] *)
(* ===================================================================== *)

(** Unfolds the monadic plumbing of a member function. *)
Ltac unfold_M :=
  unfold deref, liftR, fail, getObject, getNode, putObject, putNode,
    getLights, emit, mbind, mret, M_bind, M_ret, result_bind, result_ret
    in *.

Section movable_object_facts.
Context {Ext : Externals} {SG : SceneGraph}.

Implicit Types (o : MovableObject) (w : World) (this : ObjId) (sn : NodeId).

Lemma noCommonBit_land a b : noCommonBit a b ↔ Z.land a b = 0.
Proof.
  split.
  - intros Hno. apply Z.bits_inj'. intros i Hi.
    rewrite Z.land_spec, Z.bits_0. specialize (Hno i Hi).
    destruct (Z.testbit a i), (Z.testbit b i); simpl; tauto.
  - intros Hland i Hi [Ha Hb].
    assert (Z.testbit (Z.land a b) i = true) as Ht
      by (rewrite Z.land_spec, Ha, Hb; done).
    rewrite Hland, Z.bits_0 in Ht. discriminate.
Qed.

Lemma std_max_cases (a b : Real) : std_max a b = a ∨ std_max a b = b.
Proof. unfold std_max. destruct (Rltb a b); auto. Qed.

Lemma std_max_not_lt_l `{!RealOrder} (a b : Real) :
  Rltb (std_max a b) a = false.
Proof.
  unfold std_max. destruct (Rltb a b) eqn:Hab.
  - destruct (Rltb b a) eqn:Hba; [|done].
    pose proof (Rltb_trans _ _ _ Hab Hba) as Haa.
    by rewrite Rltb_irrefl in Haa.
  - apply Rltb_irrefl.
Qed.

Lemma std_max_not_lt_r `{!RealOrder} (a b : Real) :
  Rltb (std_max a b) b = false.
Proof.
  unfold std_max. destruct (Rltb a b) eqn:Hab; [apply Rltb_irrefl | done].
Qed.

(** Not being below is transitive in a strict weak order. *)
Lemma Rltb_false_trans `{!RealOrder} (a b c : Real) :
  Rltb a b = false → Rltb b c = false → Rltb a c = false.
Proof.
  intros Hab Hbc. destruct (Rltb a c) eqn:Hac; [|done].
  destruct (Rltb_cotrans a b c Hac); congruence.
Qed.

(** C10: a newly constructed object is unattached and visible, sits in
    render queue RENDER_QUEUE_MAIN with priority 100, casts shadows, has
    the largest float as upper visibility distance and no listener; the
    class-wide default query and visibility flags have all 32 bits set. *)
Theorem MovableObject_ctor_defaults (id : IdType) (root : option Root)
    (raw : MovableObject) :
  let o := MovableObject_ctor id root raw in
  mParentNode o = None ∧ isAttached o = false
  ∧ mVisible o = true
  ∧ mRenderQueueID o = RENDER_QUEUE_MAIN
  ∧ mRenderQueuePriority o = 100
  ∧ mCastShadows o = true
  ∧ mUpperDistance o = Rmax_value
  ∧ mListener o = None
  ∧ msDefaultQueryFlags = Z.ones 32
  ∧ msDefaultVisibilityFlags = Z.ones 32.
Proof. simpl. by split_and!. Qed.

(** C6: [isVisible] is false when the object's own visibility flag is
    false; otherwise false when the combined visibility mask of the
    active scene has no bit in common with the object's visibility flags;
    otherwise true. *)
Theorem isVisible_cases (root : Root) (sm : SceneManager) o :
  _getCurrentSceneManager root = Some sm →
  (mVisible o = false → isVisible root o = false)
  ∧ (mVisible o = true →
     noCommonBit (getVisibilityFlags o) (_getCombinedVisibilityMask sm) →
     isVisible root o = false)
  ∧ (mVisible o = true →
     ¬ noCommonBit (getVisibilityFlags o) (_getCombinedVisibilityMask sm) →
     isVisible root o = true).
Proof.
  intros Hsm. unfold isVisible. rewrite Hsm. split_and!.
  - by intros ->.
  - intros -> Hno. apply noCommonBit_land in Hno. by rewrite Hno.
  - intros -> Hno. rewrite noCommonBit_land in Hno. simpl.
    by destruct (Z.eqb_spec (Z.land (getVisibilityFlags o)
                               (_getCombinedVisibilityMask sm)) 0).
Qed.

(** Without a current scene manager the mask test is skipped. *)
Lemma isVisible_no_scene (root : Root) o :
  _getCurrentSceneManager root = None → isVisible root o = mVisible o.
Proof. unfold isVisible. intros ->. by destruct (mVisible o). Qed.

(** C8: in a debug build [setRenderQueueGroup] with a queue id above
    RENDER_QUEUE_MAX fails its assertion; with an id in range it stores
    the id, and [getRenderQueueGroup] then returns it. *)
Theorem setRenderQueueGroup_range (queueID : uint8) o :
  NDEBUG = false →
  (RENDER_QUEUE_MAX < queueID →
   setRenderQueueGroup queueID o = Fail AssertionFailed)
  ∧ (queueID ≤ RENDER_QUEUE_MAX →
     setRenderQueueGroup queueID o = Ok (set_mRenderQueueID queueID o)
     ∧ getRenderQueueGroup (set_mRenderQueueID queueID o) = queueID).
Proof.
  intros Hdbg. unfold setRenderQueueGroup, assert_. rewrite Hdbg. split.
  - intros Hq. by destruct (Z.leb_spec queueID RENDER_QUEUE_MAX); [lia|].
  - intros Hq. by destruct (Z.leb_spec queueID RENDER_QUEUE_MAX); [|lia].
Qed.

(** A release build stores whatever it is given. *)
Lemma setRenderQueueGroup_release (queueID : uint8) o :
  NDEBUG = true →
  setRenderQueueGroup queueID o = Ok (set_mRenderQueueID queueID o).
Proof. intros Hrel. unfold setRenderQueueGroup, assert_. by rewrite Hrel. Qed.

(** C4: on an unattached object [queryLights] returns the empty list
    without a fault, and the object's cached light list is cleared;
    nothing else in the scene changes. *)
Theorem queryLights_unattached this o w :
  objects w !! this = Some o → mParentNode o = None →
  ∃ w',
    queryLights this w = Ok (HashedVector.ctor, w')
    ∧ HashedVector.mList (HashedVector.ctor (T := LightClosest)) = []
    ∧ objects w' = <[this := set_mLightList HashedVector.ctor o]> (objects w)
    ∧ mLightList <$> objects w' !! this = Some HashedVector.ctor
    ∧ nodes w' = nodes w ∧ lights w' = lights w ∧ events w' = events w.
Proof.
  intros Hobj Hpar. eexists. unfold queryLights. unfold_M.
  rewrite Hobj, Hpar. simpl. split_and!; try done.
  simpl. by rewrite lookup_insert_eq.
Qed.

(** C5: on an attached object [queryLights] asks the owning node for the
    lights within the object's bounding radius times the largest axis
    component of the node's derived scale, with the object's light mask;
    the answer becomes the cached list and is returned. *)
Theorem queryLights_attached {RO : RealOrder} this o sn (node : SceneNode) w :
  objects w !! this = Some o → mParentNode o = Some sn →
  nodes w !! sn = Some node →
  let scl := _getDerivedScale node in
  ∃ (factor : Real) (w' : World),
    let answer := findLights (lights w) node (mLightList o)
                    (Rmul (getBoundingRadius o) factor) (mLightMask o) in
    queryLights this w = Ok (answer, w')
    ∧ factor ∈ [Vector3.x scl; Vector3.y scl; Vector3.z scl]
    ∧ (∀ c, c ∈ [Vector3.x scl; Vector3.y scl; Vector3.z scl] →
         Rltb factor c = false)
    ∧ objects w' = <[this := set_mLightList answer o]> (objects w)
    ∧ nodes w' = nodes w ∧ lights w' = lights w ∧ events w' = events w.
Proof.
  intros Hobj Hpar Hnode scl.
  exists (std_max (std_max (Vector3.x scl) (Vector3.y scl)) (Vector3.z scl)).
  eexists. unfold queryLights. unfold_M.
  rewrite Hobj, Hpar. simpl. rewrite Hnode. simpl.
  split_and!; try done.
  - rewrite !elem_of_cons.
    destruct (std_max_cases (std_max (Vector3.x scl) (Vector3.y scl))
                (Vector3.z scl)) as [-> | ->]; [|tauto].
    destruct (std_max_cases (Vector3.x scl) (Vector3.y scl)) as [-> | ->];
      tauto.
  - intros c. rewrite !elem_of_cons, elem_of_nil.
    intros [-> | [-> | [-> | []]]].
    + eapply Rltb_false_trans; [apply std_max_not_lt_l|].
      apply std_max_not_lt_l.
    + eapply Rltb_false_trans; [apply std_max_not_lt_l|].
      apply std_max_not_lt_r.
    + apply std_max_not_lt_r.
Qed.

(** C2: once a move has marked the cached world box stale,
    [getWorldAabb] fails its debug assertion; [getWorldAabbUpdated]
    recomputes the box of this one object as the local box transformed by
    the freshly updated full transform of the owning node, stores it and
    returns it; after that [getWorldAabb] returns the fresh box. *)
Theorem getWorldAabbUpdated_refreshes this o sn (node : SceneNode)
    (box : Aabb) w :
  NDEBUG = false →
  objects w !! this = Some o → mParentNode o = Some sn →
  nodes w !! sn = Some node →
  mLocalAabb (mObjectData o) !! mIndex (mObjectData o) = Some box →
  (mIndex (mObjectData o) < length (mWorldAabb (mObjectData o)))%nat →
  let fresh := transformAffine (fst (_getFullTransformUpdated node)) box in
  ∃ w1 o1 w2 o2,
    _notifyMoved this w = Ok ((), w1)
    ∧ objects w1 !! this = Some o1
    ∧ mCachedAabbOutOfDate o1 = true
    ∧ getWorldAabb o1 = Fail AssertionFailed
    ∧ getWorldAabbUpdated this w1 = Ok (fresh, w2)
    ∧ objects w2 !! this = Some o2
    ∧ mWorldAabb (mObjectData o2) !! mIndex (mObjectData o2) = Some fresh
    ∧ mCachedAabbOutOfDate o2 = false
    ∧ getWorldAabb o2 = Ok fresh
    ∧ (∀ p, p ≠ this → objects w2 !! p = objects w !! p)
    ∧ nodes w2 = <[sn := snd (_getFullTransformUpdated node)]> (nodes w).
Proof.
  intros Hdbg Hobj Hpar Hnode Hbox Hidx fresh.
  set (o1 := set_mCachedAabbOutOfDate true o).
  set (wa := <[mIndex (mObjectData o) := fresh]> (mWorldAabb (mObjectData o))).
  set (o2 := set_mCachedAabbOutOfDate false
               (set_mObjectData (set_mWorldAabb wa (mObjectData o1)) o1)).
  assert (∃ w1, _notifyMoved this w = Ok ((), w1)
                ∧ objects w1 = <[this := o1]> (objects w)
                ∧ nodes w1 = nodes w) as (w1 & Hmoved & Hobjs1 & Hnodes1).
  { unfold _notifyMoved. unfold_M. rewrite Hobj, Hdbg. simpl.
    destruct (mListener o); eexists; split_and!; done. }
  assert (objects w1 !! this = Some o1) as Hobj1
    by (rewrite Hobjs1; apply lookup_insert_eq).
  assert (∃ w2, getWorldAabbUpdated this w1 = Ok (fresh, w2)
                ∧ objects w2 = <[this := o2]> (objects w1)
                ∧ nodes w2 = <[sn := snd (_getFullTransformUpdated node)]>
                               (nodes w1)) as (w2 & Hupd & Hobjs2 & Hnodes2).
  { unfold getWorldAabbUpdated, updateSingleWorldAabb. unfold_M.
    rewrite Hobj1. simpl. rewrite Hpar. rewrite Hnodes1, Hnode.
    destruct (_getFullTransformUpdated node) as [m node'] eqn:Hm.
    simpl. unfold arrayGet, arraySet. simpl. rewrite Hbox.
    destruct (decide _) as [_|Hn]; [|done].
    rewrite Hdbg. subst fresh. simpl. eexists.
    split; [reflexivity|]. simpl. split; [reflexivity|].
    by rewrite ?Hnodes1. }
  exists w1, o1, w2, o2. split_and!; try done.
  - unfold getWorldAabb, assert_. by rewrite Hdbg.
  - rewrite Hobjs2. apply lookup_insert_eq.
  - simpl. subst wa. by apply list_lookup_insert_eq.
  - unfold getWorldAabb, assert_, arrayGet. rewrite Hdbg. simpl.
    subst wa. by rewrite list_lookup_insert_eq.
  - intros p Hp. rewrite Hobjs2, Hobjs1, !lookup_insert_ne; done.
  - by rewrite Hnodes2, Hnodes1.
Qed.

End movable_object_facts.

(* ===================================================================== *)
(** * Attaching and detaching *)
(* ===================================================================== *)

Section attach_detach.
Context {Ext : Externals} {SG : SceneGraph}.

Implicit Types (o : MovableObject) (w : World) (this : ObjId) (sn : NodeId).

Lemma not_elem_of_remove (p : ObjId) (s : gset ObjId) : p ∉ s ∖ {[p]}.
Proof.
  rewrite elem_of_difference, elem_of_singleton. intros [_ Hne].
  by apply Hne.
Qed.

Lemma elem_of_add (p : ObjId) (s : gset ObjId) : p ∈ {[p]} ∪ s.
Proof. apply elem_of_union. left. by apply elem_of_singleton. Qed.

Lemma remove_add (p : ObjId) (s : gset ObjId) :
  p ∉ s → ({[p]} ∪ s) ∖ {[p]} = s.
Proof.
  intros Hnin. apply set_eq. intros q.
  rewrite elem_of_difference, elem_of_union, elem_of_singleton.
  destruct (decide (q = p)) as [->|]; tauto.
Qed.

Lemma add_remove (p : ObjId) (s : gset ObjId) :
  p ∈ s → {[p]} ∪ s ∖ {[p]} = s.
Proof.
  intros Hin. apply set_eq. intros q.
  rewrite elem_of_union, elem_of_difference, elem_of_singleton.
  destruct (decide (q = p)) as [->|]; tauto.
Qed.

Lemma add_present (n : NodeId) (s : gset NodeId) : n ∈ s → {[n]} ∪ s = s.
Proof. intros Hin. apply subseteq_union_1_L. by apply singleton_subseteq_l. Qed.

Lemma withParent_parent p o : mParentNode (withParent p o) = p.
Proof. done. Qed.

Lemma withParent_slot p o :
  (mIndex (mObjectData o) < length (mParents (mObjectData o)))%nat →
  mParents (mObjectData (withParent p o))
    !! mIndex (mObjectData (withParent p o)) = Some p.
Proof. intros Hi. simpl. by apply list_lookup_insert_eq. Qed.

Lemma withParent_twice p q o :
  withParent p (withParent q o) = withParent p o.
Proof.
  unfold withParent, set_mObjectData, set_mParents, set_mParentNode. simpl.
  by rewrite list_insert_insert_eq.
Qed.

Lemma withParent_same o :
  mParents (mObjectData o) !! mIndex (mObjectData o) = Some (mParentNode o) →
  withParent (mParentNode o) o = o.
Proof.
  intros Hslot. destruct o as [? ? ? ? ? ? ? ? ? ? ? ? ? [i ps la wa] ? ? ? ? ?].
  unfold withParent, set_mObjectData, set_mParents, set_mParentNode.
  simpl in *. by rewrite list_insert_id.
Qed.

(** [_notifyAttached] goes through whenever the old or the new parent is
    null and the object's slot exists. *)
Lemma _notifyAttached_ok this o parent w :
  objects w !! this = Some o →
  mParentNode o = None ∨ parent = None →
  (mIndex (mObjectData o) < length (mParents (mObjectData o)))%nat →
  ∃ w', _notifyAttached this parent w = Ok ((), w')
        ∧ objects w' = <[this := withParent parent o]> (objects w)
        ∧ nodes w' = nodes w.
Proof.
  intros Hobj Hnull Hidx. unfold _notifyAttached, assert_, arraySet.
  unfold_M. rewrite Hobj.
  assert (is_null (mParentNode o) || is_null parent = true) as ->
    by (destruct Hnull as [-> | ->]; simpl; [done | apply orb_true_r]).
  destruct (decide _) as [_|Hn]; [|done].
  destruct NDEBUG; simpl;
    (destruct (mListener o); [destruct (bool_decide _), (is_null parent)|]);
    simpl; eexists; split_and!; done.
Qed.

(** In a debug build, telling an attached object of another non-null
    parent trips the assertion of [_notifyAttached]. *)
Lemma _notifyAttached_both_set this o sn sn' w :
  NDEBUG = false → objects w !! this = Some o → mParentNode o = Some sn →
  _notifyAttached this (Some sn') w = Fail AssertionFailed.
Proof.
  intros Hdbg Hobj Hpar. unfold _notifyAttached, assert_. unfold_M.
  by rewrite Hobj, Hpar, Hdbg.
Qed.

Lemma detachFromParent_unattached this o w :
  objects w !! this = Some o → mParentNode o = None →
  detachFromParent this w = Ok ((), w).
Proof.
  intros Hobj Hpar. unfold detachFromParent, isAttached. unfold_M.
  by rewrite Hobj, Hpar.
Qed.

Lemma detachFromParent_attached this o sn (node : SceneNode) w :
  objects w !! this = Some o → mParentNode o = Some sn →
  nodes w !! sn = Some node →
  (mIndex (mObjectData o) < length (mParents (mObjectData o)))%nat →
  ∃ w', detachFromParent this w = Ok ((), w')
        ∧ objects w' = <[this := withParent None o]> (objects w)
        ∧ nodes w' = <[sn := set_attachedObjects
                                (attachedObjects node ∖ {[this]}) node]>
                       (nodes w).
Proof.
  intros Hobj Hpar Hnode Hidx.
  set (w0 := {| objects := objects w;
                nodes := <[sn := set_attachedObjects
                                   (attachedObjects node ∖ {[this]}) node]>
                           (nodes w);
                lights := lights w; events := events w |}).
  destruct (_notifyAttached_ok this o None w0) as (w' & Hn & Ho & Hnd);
    [done | by right | done |].
  exists w'. split_and!; [|done..].
  unfold detachFromParent, isAttached, detachObject. unfold_M.
  rewrite Hobj, Hpar. simpl. rewrite Hnode. exact Hn.
Qed.

Lemma attachTo_unattached this o sn (node : SceneNode) w :
  objects w !! this = Some o → mParentNode o = None →
  nodes w !! sn = Some node →
  (mIndex (mObjectData o) < length (mParents (mObjectData o)))%nat →
  ∃ w', attachTo sn this w = Ok ((), w')
        ∧ objects w' = <[this := withParent (Some sn) o]> (objects w)
        ∧ nodes w' = <[sn := set_attachedObjects
                                ({[this]} ∪ attachedObjects node) node]>
                       (nodes w).
Proof.
  intros Hobj Hpar Hnode Hidx.
  set (w0 := {| objects := objects w;
                nodes := <[sn := set_attachedObjects
                                   ({[this]} ∪ attachedObjects node) node]>
                           (nodes w);
                lights := lights w; events := events w |}).
  destruct (_notifyAttached_ok this o (Some sn) w0) as (w' & Hn & Ho & Hnd);
    [done | by left | done |].
  exists w'. split_and!; [|done..].
  unfold attachTo.
  unfold mbind, M_bind at 1.
  rewrite (detachFromParent_unattached this o w Hobj Hpar).
  unfold_M. rewrite Hnode. exact Hn.
Qed.

Lemma attachTo_after_detach this od sn w wd :
  detachFromParent this w = Ok ((), wd) →
  objects wd !! this = Some od → mParentNode od = None →
  attachTo sn this w = attachTo sn this wd.
Proof.
  intros Hdet Hobj Hpar. unfold attachTo, mbind, M_bind.
  by rewrite Hdet, (detachFromParent_unattached this od wd Hobj Hpar).
Qed.

Lemma linkedb_true w this o : linkedb w this o = true → linked w this o.
Proof.
  unfold linkedb, linked. rewrite !andb_true_iff, !bool_decide_eq_true.
  intros [[Hslot Hatt] Hex]. split_and!; [done | done |].
  intros sn Hpar. rewrite Hpar in Hex. by apply bool_decide_eq_true in Hex.
Qed.

Lemma linked_slot_in_range w this o :
  linked w this o →
  (mIndex (mObjectData o) < length (mParents (mObjectData o)))%nat.
Proof. intros (Hslot & _). by eapply lookup_lt_Some. Qed.

(** Attaching an object, wherever it was, leaves it on [sn] and on no
    other node. *)
Lemma attachTo_any this o sn (node : SceneNode) w :
  objects w !! this = Some o → nodes w !! sn = Some node →
  linked w this o →
  ∃ w1, attachTo sn this w = Ok ((), w1)
        ∧ objects w1 !! this = Some (withParent (Some sn) o)
        ∧ linked w1 this (withParent (Some sn) o)
        ∧ (∀ p, p ≠ this → objects w1 !! p = objects w !! p)
        ∧ dom (nodes w1) = dom (nodes w).
Proof.
  intros Hobj Hnode Hl.
  pose proof (linked_slot_in_range _ _ _ Hl) as Hidx.
  destruct Hl as (Hslot & Hatt & Hex).
  destruct (mParentNode o) as [sn0|] eqn:Hpar.
  - (* attached to [sn0]: detached first *)
    destruct (Hex sn0 eq_refl) as [node0 Hnode0].
    destruct (detachFromParent_attached this o sn0 node0 w)
      as (wd & Hdet & Hod & Hnd); [done..|].
    assert (objects wd !! this = Some (withParent None o)) as Hobjd
      by (rewrite Hod; apply lookup_insert_eq).
    assert (∃ noded, nodes wd !! sn = Some noded
                     ∧ this ∉ attachedObjects noded) as (noded & Hnoded & Hnin).
    { rewrite Hnd. destruct (decide (sn0 = sn)) as [->|Hne].
      - rewrite lookup_insert_eq. eexists. split; [done|]. simpl.
        apply not_elem_of_remove.
      - rewrite lookup_insert_ne by done. exists node. split; [done|].
        intros Hin. apply (Hatt sn node Hnode) in Hin. congruence. }
    destruct (attachTo_unattached this (withParent None o) sn noded wd)
      as (w1 & Hat & Ho1 & Hn1); [done | done | done | |].
    { simpl. by rewrite length_insert. }
    exists w1. rewrite (attachTo_after_detach this _ sn w wd Hdet Hobjd eq_refl).
    rewrite withParent_twice in Ho1. split_and!.
    + done.
    + rewrite Ho1. apply lookup_insert_eq.
    + split_and!.
      * by apply withParent_slot.
      * intros sn' node'. rewrite Hn1, Hnd. simpl.
        destruct (decide (sn = sn')) as [<-|Hne].
        { rewrite lookup_insert_eq. intros [= <-]. simpl.
          split; [done | intros _; apply elem_of_add]. }
        rewrite lookup_insert_ne by done.
        destruct (decide (sn0 = sn')) as [<-|Hne0].
        { rewrite lookup_insert_eq. intros [= <-]. simpl.
          split; [|congruence]. intros Hin.
          by apply not_elem_of_remove in Hin. }
        rewrite lookup_insert_ne by done. intros Hn'.
        split; [|congruence]. intros Hin.
        apply (Hatt sn' node' Hn') in Hin. congruence.
      * simpl. intros sn' [= <-]. rewrite Hn1, lookup_insert_eq. eauto.
    + intros p Hp. by rewrite Ho1, Hod, !lookup_insert_ne.
    + rewrite Hn1, Hnd, !dom_insert_L.
      apply elem_of_dom_2 in Hnode, Hnode0.
      by rewrite (add_present sn0), (add_present sn).
  - (* not attached *)
    destruct (attachTo_unattached this o sn node w)
      as (w1 & Hat & Ho1 & Hn1); [done..|].
    exists w1. split_and!.
    + done.
    + rewrite Ho1. apply lookup_insert_eq.
    + split_and!.
      * by apply withParent_slot.
      * intros sn' node'. rewrite Hn1. simpl.
        destruct (decide (sn = sn')) as [<-|Hne].
        { rewrite lookup_insert_eq. intros [= <-]. simpl.
          split; [done | intros _; apply elem_of_add]. }
        rewrite lookup_insert_ne by done. intros Hn'.
        split; [|congruence]. intros Hin.
        apply (Hatt sn' node' Hn') in Hin. congruence.
      * simpl. intros sn' [= <-]. rewrite Hn1, lookup_insert_eq. eauto.
    + intros p Hp. by rewrite Ho1, lookup_insert_ne.
    + rewrite Hn1, dom_insert_L. apply elem_of_dom_2 in Hnode.
      by rewrite add_present.
Qed.

(** C3: [attachTo] and [detachFromParent] undo each other.  Detaching an
    unattached object changes nothing and raises no fault; attaching an
    object that is already attached first detaches it from its previous
    node, so that it ends on the new node and on no other, without
    tripping the assertion of [_notifyAttached]; attaching an unattached
    object and detaching it again, and detaching an attached object and
    attaching it back, restore the objects and the nodes of the scene. *)
Theorem attachTo_detachFromParent_inverse this o sn (node : SceneNode) w :
  objects w !! this = Some o → nodes w !! sn = Some node →
  linked w this o →
  (mParentNode o = None → detachFromParent this w = Ok ((), w))
  ∧ (∃ w1 o1,
       attachTo sn this w = Ok ((), w1)
       ∧ objects w1 !! this = Some o1
       ∧ mParentNode o1 = Some sn
       ∧ linked w1 this o1
       ∧ (∀ sn' node', nodes w1 !! sn' = Some node' → sn' ≠ sn →
            this ∉ attachedObjects node'))
  ∧ (mParentNode o = None →
     ∃ w1 w2,
       attachTo sn this w = Ok ((), w1)
       ∧ detachFromParent this w1 = Ok ((), w2)
       ∧ objects w2 = objects w ∧ nodes w2 = nodes w)
  ∧ (mParentNode o = Some sn →
     ∃ w1 o1 w2,
       detachFromParent this w = Ok ((), w1)
       ∧ objects w1 !! this = Some o1
       ∧ mParentNode o1 = None
       ∧ attachTo sn this w1 = Ok ((), w2)
       ∧ objects w2 = objects w ∧ nodes w2 = nodes w).
Proof.
  intros Hobj Hnode Hl.
  pose proof (linked_slot_in_range _ _ _ Hl) as Hidx.
  split_and!.
  - by apply detachFromParent_unattached.
  - destruct (attachTo_any this o sn node w) as (w1 & Hat & Ho1 & Hl1 & _);
      [done..|].
    exists w1, (withParent (Some sn) o). split_and!; try done.
    intros sn' node' Hn' Hne Hin. destruct Hl1 as (_ & Hatt1 & _).
    apply (Hatt1 sn' node' Hn') in Hin. simpl in Hin. congruence.
  - intros Hpar. destruct Hl as (Hslot & Hatt & Hex).
    destruct (attachTo_unattached this o sn node w)
      as (w1 & Hat & Ho1 & Hn1); [done..|].
    destruct (detachFromParent_attached this (withParent (Some sn) o) sn
                (set_attachedObjects ({[this]} ∪ attachedObjects node) node)
                w1) as (w2 & Hdet & Ho2 & Hn2).
    { rewrite Ho1. apply lookup_insert_eq. }
    { done. }
    { rewrite Hn1. apply lookup_insert_eq. }
    { simpl. by rewrite length_insert. }
    exists w1, w2. split_and!; [done | done | |].
    + rewrite Ho2, Ho1, insert_insert_eq, withParent_twice, <- Hpar.
      rewrite withParent_same by done. by apply insert_id.
    + rewrite Hn2, Hn1, insert_insert_eq. apply insert_id. rewrite Hnode.
      f_equal. destruct node as [dp ds att]. unfold set_attachedObjects.
      simpl. f_equal.
      assert (this ∉ att) as Hnin.
      { intros Hin. apply (Hatt sn _ Hnode) in Hin. congruence. }
      symmetry. by apply remove_add.
  - intros Hpar. destruct Hl as (Hslot & Hatt & Hex).
    destruct (detachFromParent_attached this o sn node w)
      as (w1 & Hdet & Ho1 & Hn1); [done..|].
    destruct (attachTo_unattached this (withParent None o) sn
                (set_attachedObjects (attachedObjects node ∖ {[this]}) node)
                w1) as (w2 & Hat & Ho2 & Hn2).
    { rewrite Ho1. apply lookup_insert_eq. }
    { done. }
    { rewrite Hn1. apply lookup_insert_eq. }
    { simpl. by rewrite length_insert. }
    exists w1, (withParent None o), w2. split_and!; try done.
    + rewrite Ho1. apply lookup_insert_eq.
    + rewrite Ho2, Ho1, insert_insert_eq, withParent_twice, <- Hpar.
      rewrite withParent_same by done. by apply insert_id.
    + rewrite Hn2, Hn1, insert_insert_eq. apply insert_id. rewrite Hnode.
      f_equal. destruct node as [dp ds att]. unfold set_attachedObjects.
      simpl. f_equal.
      assert (this ∈ att) as Hin by (by apply (Hatt sn _ Hnode)).
      symmetry. by apply add_remove.
Qed.

End attach_detach.

(* ===================================================================== *)
(** * The light query *)
(* ===================================================================== *)

Section light_query_facts.
Context {Ext : Externals} {RO : RealOrder} {LH : LightHash}.

Implicit Types (a b c e : LightClosest) (all : list Light) (lt : Light).

Lemma Rltb_asym (x y : Real) : Rltb x y = true → Rltb y x = false.
Proof.
  intros Hxy. destruct (Rltb y x) eqn:Hyx; [|done].
  pose proof (Rltb_trans _ _ _ Hxy Hyx) as Hxx.
  by rewrite Rltb_irrefl in Hxx.
Qed.

Lemma LightClosest_lt_true a b :
  LightClosest_lt a b = true ↔
    Rltb (distance a) (distance b) = true
    ∨ (Rltb (distance b) (distance a) = false
       ∧ (globalIndex a < globalIndex b)%nat).
Proof.
  unfold LightClosest_lt.
  rewrite orb_true_iff, andb_true_iff, negb_true_iff, Nat.ltb_lt. tauto.
Qed.

Lemma LightClosest_lt_false a b :
  LightClosest_lt a b = false ↔
    Rltb (distance a) (distance b) = false
    ∧ (Rltb (distance b) (distance a) = true
       ∨ (globalIndex b ≤ globalIndex a)%nat).
Proof.
  unfold LightClosest_lt.
  rewrite orb_false_iff, andb_false_iff, negb_false_iff, Nat.ltb_ge. tauto.
Qed.

Local Instance LightClosest_le_total : Total LightClosest_le.
Proof.
  intros a b. unfold LightClosest_le.
  destruct (LightClosest_lt b a) eqn:Hba; [|by left]. right.
  apply LightClosest_lt_true in Hba. apply LightClosest_lt_false.
  destruct Hba as [Hlt | [Hnlt Hidx]].
  - split; [by apply Rltb_asym | by left].
  - split; [done | right; lia].
Qed.

Local Instance LightClosest_le_trans : Transitive LightClosest_le.
Proof.
  intros a b c. unfold LightClosest_le.
  rewrite !LightClosest_lt_false. intros [Hba Hab] [Hcb Hbc]. split.
  - destruct (Rltb (distance c) (distance a)) eqn:Hca; [|done].
    destruct (Rltb_cotrans _ (distance b) _ Hca); congruence.
  - destruct Hab as [Hab | Hab].
    + destruct (Rltb_cotrans _ (distance c) _ Hab) as [Hac | Hcb'];
        [by left | congruence].
    + destruct Hbc as [Hbc | Hbc].
      * destruct (Rltb_cotrans _ (distance a) _ Hbc) as [Hba' | Hac];
          [congruence | by left].
      * right. lia.
Qed.

(** Between two entries with different indices the order is strict. *)
Lemma LightClosest_le_lt a b :
  LightClosest_le a b → globalIndex a ≠ globalIndex b →
  LightClosest_lt a b = true.
Proof.
  unfold LightClosest_le. rewrite LightClosest_lt_false, LightClosest_lt_true.
  intros [Hba [Hab | Hidx]] Hne; [by left | right]. split; [done | lia].
Qed.

Lemma elem_of_collectLights e i all p radius mask :
  e ∈ collectLights i all p radius mask ↔
    ∃ k lt, all !! k = Some lt
            ∧ masksIntersect (getLightMask lt) mask = true
            ∧ withinRadius radius (lightDistance p lt) = true
            ∧ e = {| light := Some lt; globalIndex := i + k;
                     distance := lightDistance p lt |}.
Proof.
  revert i. induction all as [|l all IH]; intros i; simpl.
  - rewrite elem_of_nil. split; [done | by intros (k & lt & ? & _)].
  - assert (e ∈ collectLights (S i) all p radius mask ↔
              ∃ k lt, (l :: all) !! S k = Some lt
                ∧ masksIntersect (getLightMask lt) mask = true
                ∧ withinRadius radius (lightDistance p lt) = true
                ∧ e = {| light := Some lt; globalIndex := i + S k;
                         distance := lightDistance p lt |}) as Hrest.
    { rewrite IH. simpl. setoid_rewrite Nat.add_succ_r. done. }
    destruct (masksIntersect (getLightMask l) mask
              && withinRadius radius (lightDistance p l)) eqn:Hkeep.
    + apply andb_true_iff in Hkeep as [Hm Hr].
      rewrite elem_of_cons, Hrest. split.
      * intros [-> | (k & lt & ?)].
        { exists 0%nat, l. by rewrite Nat.add_0_r. }
        by exists (S k), lt.
      * intros ([|k] & lt & Hk & Hrem).
        { left. simpl in Hk. injection Hk as <-.
          rewrite Nat.add_0_r in Hrem. tauto. }
        right. by exists k, lt.
    + rewrite Hrest. split.
      * intros (k & lt & ?). by exists (S k), lt.
      * intros ([|k] & lt & Hk & Hm & Hr & He).
        { simpl in Hk. injection Hk as <-. by rewrite Hm, Hr in Hkeep. }
        by exists k, lt.
Qed.

Lemma NoDup_collectLights i all p radius mask :
  NoDup (globalIndex <$> collectLights i all p radius mask).
Proof.
  revert i. induction all as [|l all IH]; intros i; simpl.
  - constructor.
  - destruct (_ && _); [|apply IH]. simpl. constructor; [|apply IH].
    rewrite list_elem_of_fmap. intros (e & Hidx & He).
    apply elem_of_collectLights in He as (k & lt & _ & _ & _ & ->).
    simpl in Hidx. lia.
Qed.

Lemma StronglySorted_lookup {A} (R : relation A) (l : list A) i j x y :
  StronglySorted R l → (i < j)%nat →
  l !! i = Some x → l !! j = Some y → R x y.
Proof.
  intros Hs. revert i j. induction Hs as [|z l Hs IH Hall]; intros i j Hij.
  - done.
  - destruct j as [|j]; [lia|]. destruct i as [|i]; simpl.
    + intros [= <-] Hy. rewrite Forall_forall in Hall. apply Hall.
      by eapply list_elem_of_lookup_2.
    + apply IH. lia.
Qed.

Lemma StronglySorted_strict (l : list LightClosest) :
  StronglySorted LightClosest_le l → NoDup (globalIndex <$> l) →
  StronglySorted (λ a b, LightClosest_lt a b = true) l.
Proof.
  induction 1 as [|a l Hs IH Hall]; simpl; intros Hnd.
  - constructor.
  - apply NoDup_cons in Hnd as [Hnin Hnd]. constructor; [by apply IH|].
    rewrite Forall_forall in Hall |- *. intros b Hb.
    apply LightClosest_le_lt; [by apply Hall|].
    intros Heq. apply Hnin. rewrite Heq. by apply list_elem_of_fmap_2.
Qed.

(** The sorted candidates, before the cap. *)
Lemma sorted_candidates all p radius mask :
  let s := merge_sort LightClosest_le (collectLights 0 all p radius mask) in
  StronglySorted LightClosest_le s
  ∧ NoDup (globalIndex <$> s)
  ∧ ∀ e, e ∈ s ↔ e ∈ collectLights 0 all p radius mask.
Proof.
  intros s. split_and!.
  - apply StronglySorted_merge_sort; apply _.
  - subst s. rewrite merge_sort_Permutation. apply NoDup_collectLights.
  - intros e. subst s. by rewrite merge_sort_Permutation.
Qed.

(** C1: for an attached object with light mask M, [queryLights] with the
    light query of the design document returns only lights of the scene
    whose mask intersects M, each with its global index and its distance
    to the query point; the list is in ascending order of distance, equal
    distances in ascending order of global index; it holds at most
    [maxLights] entries, and a matching light within the radius that was
    left out comes after every entry kept.  The list is a function of the
    scene, so the order is the same on every run. *)
Theorem queryLights_nearest_lights (maxLights : nat)
    (fullTransformUpdated : SceneNode → Matrix4 * SceneNode)
    (this : ObjId) (o : MovableObject) (sn : NodeId) (node : SceneNode)
    (w : World) :
  objects w !! this = Some o → mParentNode o = Some sn →
  nodes w !! sn = Some node →
  let scl := _getDerivedScale node in
  let radius :=
    Rmul (getBoundingRadius o)
         (std_max (std_max (Vector3.x scl) (Vector3.y scl)) (Vector3.z scl)) in
  let p := _getDerivedPosition node in
  ∃ (answer : LightList) (w' : World),
    queryLights (SG := specSceneGraph maxLights fullTransformUpdated) this w
    = Ok (answer, w')
    ∧ (∀ e, e ∈ HashedVector.mList answer →
         ∃ lt, light e = Some lt
               ∧ lights w !! globalIndex e = Some lt
               ∧ Z.land (getLightMask lt) (mLightMask o) ≠ 0
               ∧ distance e = lightDistance p lt)
    ∧ (∀ i j a b, (i < j)%nat →
         HashedVector.mList answer !! i = Some a →
         HashedVector.mList answer !! j = Some b →
         Rltb (distance b) (distance a) = false
         ∧ (Rltb (distance a) (distance b) = false →
            (globalIndex a < globalIndex b)%nat))
    ∧ (length (HashedVector.mList answer) ≤ maxLights)%nat
    ∧ (∀ k lt, lights w !! k = Some lt →
         Z.land (getLightMask lt) (mLightMask o) ≠ 0 →
         withinRadius radius (lightDistance p lt) = true →
         let c := {| light := Some lt; globalIndex := k;
                     distance := lightDistance p lt |} in
         c ∈ HashedVector.mList answer
         ∨ (length (HashedVector.mList answer) = maxLights
            ∧ ∀ e, e ∈ HashedVector.mList answer →
                   LightClosest_lt e c = true)).
Proof.
  intros Hobj Hpar Hnode scl radius p.
  set (s := merge_sort LightClosest_le
              (collectLights 0 (lights w) p radius (mLightMask o))).
  destruct (sorted_candidates (lights w) p radius (mLightMask o))
    as (Hsorted & Hnd & Hmem). fold s in Hsorted, Hnd, Hmem.
  assert (StronglySorted (λ a b, LightClosest_lt a b = true) s) as Hstrict
    by by apply StronglySorted_strict.
  exists (findLights_spec maxLights (lights w) node (mLightList o) radius
            (mLightMask o)). eexists.
  assert (HashedVector.mList
            (findLights_spec maxLights (lights w) node (mLightList o) radius
               (mLightMask o)) = take maxLights s) as ->.
  { unfold findLights_spec.
    by rewrite HashedVectorFacts.mList_foldl_push_back. }
  split_and!.
  - unfold queryLights. unfold_M. rewrite Hobj, Hpar. simpl.
    rewrite Hnode. reflexivity.
  - intros e He. apply subseteq_take, Hmem in He.
    apply elem_of_collectLights in He as (k & lt & Hk & Hm & _ & ->).
    exists lt. simpl. split_and!; try done.
    unfold masksIntersect in Hm. apply negb_true_iff in Hm.
    by apply Z.eqb_neq.
  - intros i j a b Hij Ha Hb.
    assert (LightClosest_lt a b = true) as Hab.
    { apply (StronglySorted_lookup (λ a b, LightClosest_lt a b = true)
               (take maxLights s) i j a b); try done.
      rewrite <- (take_drop maxLights s) in Hstrict.
      by apply StronglySorted_app_1_l in Hstrict. }
    apply LightClosest_lt_true in Hab as [Hlt | [Hnlt Hidx]].
    + split; [by apply Rltb_asym | congruence].
    + done.
  - rewrite length_take. lia.
  - intros k lt Hk Hm Hr c.
    assert (c ∈ s) as Hc.
    { apply Hmem, elem_of_collectLights. exists k, lt. split_and!; try done.
      unfold masksIntersect. apply negb_true_iff. by apply Z.eqb_neq. }
    rewrite <- (take_drop maxLights s) in Hc, Hstrict.
    apply elem_of_app in Hc as [Hc | Hc]; [by left | right]. split.
    + apply length_take_le.
      destruct (decide (maxLights ≤ length s)%nat) as [|Hn]; [done|].
      rewrite drop_ge in Hc by lia. by apply elem_of_nil in Hc.
    + intros e He.
      exact (StronglySorted_app_1_elem_of
               (λ a b, LightClosest_lt a b = true) _ _ e c Hstrict He Hc).
Qed.

End light_query_facts.

(* ===================================================================== *)
(** * The statements on the sample scene *)
(* ===================================================================== *)

Lemma sample_realOrder : RealOrder (Ext := Sample.externals).
Proof.
  split; simpl.
  - apply Z.ltb_irrefl.
  - intros a b c. rewrite !Z.ltb_lt. lia.
  - intros a b c. rewrite !Z.ltb_lt. lia.
Qed.

(** The example of the design document: A (distance 5, index 2),
    B (distance 5, index 1), C (distance 3, index 5), cap 2: the answer
    is C, then B. *)
Lemma queryLights_nearest_lights_witness :
  objects Sample.attachedWorld !! 0%nat
    = Some (Sample.object (Some 0%nat) true)
  ∧ ∃ answer w',
      queryLights (SG := Sample.specGraph) 0%nat Sample.attachedWorld
        = Ok (answer, w')
      ∧ globalIndex <$> HashedVector.mList answer = [5; 1]%nat
      ∧ distance <$> HashedVector.mList answer = [9; 25]
      ∧ (length (HashedVector.mList answer) ≤ 2)%nat.
Proof.
  split; [reflexivity|].
  destruct (queryLights_nearest_lights (RO := sample_realOrder)
              (LH := Sample.lightHash) 2
              (λ n, (Vector3.y (_getDerivedScale n), n))
              0%nat (Sample.object (Some 0%nat) true) 0%nat
              (Sample.node {[ 0%nat ]}) Sample.attachedWorld
              eq_refl eq_refl eq_refl)
    as (answer & w' & Hq & _ & _ & Hlen & _).
  pose proof (f_equal (λ r, match r with
                            | Ok (a, _) => HashedVector.mList a
                            | Fail _ => []
                            end) Hq) as Hl.
  destruct answer as [l h d]. vm_compute in Hl. subst l.
  eexists _, w'. split; [exact Hq|].
  split_and!; [reflexivity | reflexivity | exact Hlen].
Defined.

Lemma getWorldAabbUpdated_refreshes_witness :
  NDEBUG (Externals := Sample.externals) = false
  ∧ ∃ w1 o1 w2 o2,
      _notifyMoved 0%nat Sample.attachedWorld = Ok ((), w1)
      ∧ objects w1 !! 0%nat = Some o1
      ∧ getWorldAabb o1 = Fail AssertionFailed
      ∧ getWorldAabbUpdated (SG := Sample.sceneGraph) 0%nat w1
        = Ok ((8, 11), w2)
      ∧ objects w2 !! 0%nat = Some o2
      ∧ getWorldAabb o2 = Ok (8, 11).
Proof.
  split; [reflexivity|].
  destruct (getWorldAabbUpdated_refreshes (SG := Sample.sceneGraph)
              0%nat (Sample.object (Some 0%nat) true) 0%nat
              (Sample.node {[ 0%nat ]}) (1, 4) Sample.attachedWorld
              eq_refl eq_refl eq_refl eq_refl eq_refl
              ltac:(simpl; lia))
    as (w1 & o1 & w2 & o2 & H1 & H2 & _ & H4 & H5 & H6 & _ & _ & H9 & _).
  exists w1, o1, w2, o2.
  split_and!; [exact H1 | exact H2 | exact H4 | exact H5 | exact H6 | exact H9].
Defined.

Lemma attachTo_detachFromParent_inverse_witness :
  linkedb Sample.attachedWorld 0%nat (Sample.object (Some 0%nat) true) = true
  ∧ linkedb Sample.detachedWorld 0%nat (Sample.object None true) = true
  ∧ detachFromParent 0%nat Sample.detachedWorld = Ok ((), Sample.detachedWorld)
  ∧ (∃ w1 o1,
       attachTo 1%nat 0%nat Sample.attachedWorld = Ok ((), w1)
       ∧ objects w1 !! 0%nat = Some o1 ∧ mParentNode o1 = Some 1%nat)
  ∧ (∃ w1 o1 w2,
       detachFromParent 0%nat Sample.attachedWorld = Ok ((), w1)
       ∧ objects w1 !! 0%nat = Some o1 ∧ mParentNode o1 = None
       ∧ attachTo 0%nat 0%nat w1 = Ok ((), w2)
       ∧ objects w2 = objects Sample.attachedWorld
       ∧ nodes w2 = nodes Sample.attachedWorld).
Proof.
  split; [by vm_compute|]. split; [by vm_compute|].
  destruct (attachTo_detachFromParent_inverse
              0%nat (Sample.object None true) 1%nat (Sample.node ∅)
              Sample.detachedWorld eq_refl eq_refl
              ltac:(apply linkedb_true; by vm_compute)) as (Hnoop & _).
  destruct (attachTo_detachFromParent_inverse
              0%nat (Sample.object (Some 0%nat) true) 1%nat (Sample.node ∅)
              Sample.attachedWorld eq_refl eq_refl
              ltac:(apply linkedb_true; by vm_compute))
    as (_ & (w1 & o1 & Hat & Ho1 & Hp1 & _) & _).
  destruct (attachTo_detachFromParent_inverse
              0%nat (Sample.object (Some 0%nat) true) 0%nat
              (Sample.node {[ 0%nat ]})
              Sample.attachedWorld eq_refl eq_refl
              ltac:(apply linkedb_true; by vm_compute))
    as (_ & _ & _ & Hback).
  split; [exact (Hnoop eq_refl)|]. split.
  - exists w1, o1. split_and!; [exact Hat | exact Ho1 | exact Hp1].
  - exact (Hback eq_refl).
Defined.

Lemma queryLights_unattached_witness :
  objects Sample.detachedWorld !! 0%nat = Some (Sample.object None true)
  ∧ ∃ w',
      queryLights (SG := Sample.sceneGraph) 0%nat Sample.detachedWorld
        = Ok (HashedVector.ctor, w')
      ∧ events w' = [].
Proof.
  split; [reflexivity|].
  destruct (queryLights_unattached (SG := Sample.sceneGraph) 0%nat
              (Sample.object None true) Sample.detachedWorld
              eq_refl eq_refl)
    as (w' & Hq & _ & _ & _ & _ & _ & Hev).
  exists w'. split; [exact Hq | exact Hev].
Defined.

(** The bounding radius is 2 and the derived scale (2, 7, 3): the node is
    asked with radius 14 and the object's light mask 1. *)
Lemma queryLights_attached_witness :
  objects Sample.attachedWorld !! 0%nat
    = Some (Sample.object (Some 0%nat) true)
  ∧ ∃ (factor : Z) w',
      queryLights (SG := Sample.sceneGraph) 0%nat Sample.attachedWorld
        = Ok (findLights (SceneGraph := Sample.sceneGraph)
                Sample.someLights (Sample.node {[ 0%nat ]})
                HashedVector.ctor (2 * factor) 1, w')
      ∧ factor ∈ [2; 7; 3]
      ∧ (factor <? 7) = false.
Proof.
  split; [reflexivity|].
  destruct (queryLights_attached (SG := Sample.sceneGraph)
              (RO := sample_realOrder) 0%nat
              (Sample.object (Some 0%nat) true) 0%nat
              (Sample.node {[ 0%nat ]}) Sample.attachedWorld
              eq_refl eq_refl eq_refl)
    as (factor & w' & Hq & Hin & Hmax & _).
  exists factor, w'. split_and!; [exact Hq | exact Hin |].
  apply (Hmax 7). apply list_elem_of_In. simpl. tauto.
Defined.

(** Visibility flags 6 against the scene masks 1 and 2. *)
Lemma isVisible_cases_witness :
  isVisible (Sample.root 1) (Sample.object None false) = false
  ∧ isVisible (Sample.root 2) (Sample.object None false) = true.
Proof.
  split.
  - apply (isVisible_cases (Sample.root 1)
             {| _getCombinedVisibilityMask := 1 |}
             (Sample.object None false) eq_refl);
      [reflexivity | apply noCommonBit_land; reflexivity].
  - apply (isVisible_cases (Sample.root 2)
             {| _getCombinedVisibilityMask := 2 |}
             (Sample.object None false) eq_refl);
      [reflexivity | rewrite noCommonBit_land; by vm_compute].
Defined.

Lemma setRenderQueueGroup_range_witness :
  setRenderQueueGroup 106 (Sample.object None false) = Fail AssertionFailed
  ∧ setRenderQueueGroup 105 (Sample.object None false)
    = Ok (set_mRenderQueueID 105 (Sample.object None false))
  ∧ getRenderQueueGroup (set_mRenderQueueID 105 (Sample.object None false))
    = 105.
Proof.
  split.
  - apply (setRenderQueueGroup_range 106 (Sample.object None false) eq_refl).
    simpl. lia.
  - apply (setRenderQueueGroup_range 105 (Sample.object None false) eq_refl).
    simpl. lia.
Defined.

(** Re-attaching without detaching first is what the assertion of
    [_notifyAttached] forbids. *)
Lemma _notifyAttached_both_set_sample :
  _notifyAttached 0%nat (Some 1%nat) Sample.attachedWorld
  = Fail AssertionFailed.
Proof. reflexivity. Qed.

(* ===================================================================== *)
(** * More on [HashedVector] *)
(* ===================================================================== *)

Module HashedVectorMore.
Import HashedVector.

Section more.
Context {T : Type} (FastHash : T → uint32 → uint32).

Local Abbreviation hash_from := (HashedVector.hash_from FastHash).
Local Abbreviation coherent := (HashedVector.coherent FastHash).
Local Abbreviation push_back := (HashedVector.push_back FastHash).
Local Abbreviation getHash := (HashedVector.getHash FastHash).

Implicit Types (v rhs : t T) (x : T) (l : list T).

Lemma foldl_push_back_clean l v :
  isHashDirty v = false →
  foldl (λ u e, push_back e u) v l
  = Build (mList v ++ l) (hash_from (mListHash v) l) false.
Proof.
  revert v. induction l as [|x l IH]; intros v Hd; simpl.
  - rewrite app_nil_r. destruct v; simpl in *. by subst.
  - unfold isHashDirty in Hd. rewrite IH.
    + unfold HashedVector.push_back. simpl. rewrite Hd. simpl.
      by rewrite <- app_assoc.
    + unfold HashedVector.push_back, isHashDirty. simpl. by rewrite Hd.
Qed.

Lemma foldl_push_back_dirty l v :
  isHashDirty v = true →
  foldl (λ u e, push_back e u) v l = Build (mList v ++ l) (mListHash v) true.
Proof.
  revert v. induction l as [|x l IH]; intros v Hd; simpl.
  - rewrite app_nil_r. destruct v; simpl in *. by subst.
  - unfold isHashDirty in Hd. rewrite IH.
    + unfold HashedVector.push_back. simpl. rewrite Hd. simpl.
      by rewrite <- app_assoc.
    + unfold HashedVector.push_back, isHashDirty. simpl. by rewrite Hd.
Qed.

(** X2: filling an empty list with [push_back] keeps the hash up to date
    as it goes: the list ends not dirty, holding the elements in the
    order pushed and the very hash that a full recomputation gives, so
    that [getHash] returns it without recomputing; on a list that is
    dirty, [push_back] appends and leaves the stored hash alone. *)
Theorem push_back_progressive_hash l v :
  foldl (λ u e, push_back e u) ctor l = Build l (hash_from 0 l) false
  ∧ getHash (foldl (λ u e, push_back e u) ctor l)
    = (hash_from 0 l, Build l (hash_from 0 l) false)
  ∧ foldl (λ u e, push_back e u) (dirtyHash v) l
    = Build (mList v ++ l) (mListHash v) true.
Proof.
  split_and!.
  - by rewrite foldl_push_back_clean.
  - by rewrite foldl_push_back_clean.
  - by rewrite foldl_push_back_dirty.
Qed.

(** X3: [swap] marks the receiver dirty and leaves the argument's flag
    and stored hash as they were.  When the argument was not dirty and
    carried the hash of its elements, both lists report, after the swap,
    the hash of the elements that the argument used to hold: the
    receiver rightly, the argument for elements it no longer has. *)
Theorem swap_hashes v rhs :
  isHashDirty rhs = false → coherent rhs →
  let v' := fst (swap rhs v) in
  let rhs' := snd (swap rhs v) in
  mList v' = mList rhs ∧ mList rhs' = mList v
  ∧ isHashDirty v' = true ∧ isHashDirty rhs' = false
  ∧ fst (getHash v') = hash_from 0 (mList rhs)
  ∧ fst (getHash rhs') = hash_from 0 (mList rhs).
Proof.
  intros Hd Hc. simpl. split_and!; try done.
  unfold HashedVector.getHash, isHashDirty in *. simpl. rewrite Hd.
  simpl. by apply Hc.
Qed.

(** X4: [getHash] never changes the elements, always leaves the list not
    dirty, and a second read returns the same hash and changes nothing
    more. *)
Theorem getHash_stable v :
  let v1 := snd (getHash v) in
  mList v1 = mList v
  ∧ isHashDirty v1 = false
  ∧ getHash v1 = (fst (getHash v), v1).
Proof.
  unfold HashedVector.getHash. destruct (isHashDirty v) eqn:Hd; simpl.
  - done.
  - by rewrite Hd.
Qed.

(** X1: whichever constructor made the list and whatever mutating
    operations followed, [getHash] returns the hash of the elements that
    the list holds at that moment. *)
Theorem constructed_then_mutated (T_default : T) os v0 v n x g l :
  (coherent ctor ∧ coherent (ctor_n T_default n)
   ∧ coherent (ctor_fill n x) ∧ coherent (ctor_range g l))
  ∧ (v0 = ctor ∨ v0 = ctor_n T_default n ∨ v0 = ctor_fill n x
     ∨ v0 = ctor_range g l →
     Forall (HashedVector.operand_coherent FastHash) os →
     HashedVector.run FastHash os v0 = Some v →
     fst (getHash v) = hash_from 0 (mList v)).
Proof.
  assert (coherent ctor ∧ coherent (ctor_n T_default n)
          ∧ coherent (ctor_fill n x) ∧ coherent (ctor_range g l))
    as Hctors.
  { split_and!.
    - apply HashedVectorFacts.coherent_ctor.
    - apply (HashedVectorFacts.coherent_ctor_fill _ n T_default).
    - apply HashedVectorFacts.coherent_ctor_fill.
    - apply HashedVectorFacts.coherent_ctor_range. }
  split; [exact Hctors|]. intros Hv0 Hos Hrun.
  apply HashedVectorFacts.getHash_coherent.
  eapply HashedVectorFacts.run_coherent; [done..|].
  destruct Hctors as (H1 & H2 & H3 & H4).
  destruct Hv0 as [-> | [-> | [-> | ->]]]; done.
Qed.

End more.

Lemma constructed_then_mutated_witness :
  let os := [OpPushBack 3; OpInsert 0%nat 4; OpResize 3%nat 0; OpPopBack] in
  run Sample.hashZ os (ctor_fill 1 9) = Some (Build [4; 9] 0 true)
  ∧ fst (getHash Sample.hashZ (Build [4; 9] 0 true))
    = hash_from Sample.hashZ 0 [4; 9].
Proof.
  intros os. split; [by vm_compute|].
  destruct (constructed_then_mutated Sample.hashZ 0 os (ctor_fill 1 9)
              (Build [4; 9] 0 true) 1 9 0 [])
    as (_ & Hrun).
  apply Hrun.
  - right. right. by left.
  - repeat constructor.
  - by vm_compute.
Defined.

Lemma swap_hashes_witness :
  let rhs := push_back Sample.hashZ 7 ctor in
  let v := push_back Sample.hashZ 1 ctor in
  isHashDirty rhs = false
  ∧ fst (getHash Sample.hashZ (snd (swap rhs v))) = 8
  ∧ hash_from Sample.hashZ 0 (mList (snd (swap rhs v))) = 2.
Proof.
  intros rhs v. split; [reflexivity|]. split; [|by vm_compute].
  destruct (swap_hashes Sample.hashZ v rhs eq_refl
              (HashedVectorFacts.coherent_push_back _ 7 _
                 (HashedVectorFacts.coherent_ctor _)))
    as (_ & _ & _ & _ & _ & Hrhs).
  exact Hrhs.
Defined.

End HashedVectorMore.

(* ===================================================================== *)
(** * Properties of [TRect] *)
(* ===================================================================== *)

Module TRectFacts.
Import TRect.

Section trect_facts.
Context {T : Type} {SC : Scalar T} {SL : ScalarLaws T}.

Implicit Types (r rhs a b : t T) (p q u x y : T).

Lemma Sltb_asym p q : Sltb p q = true → Sltb q p = false.
Proof.
  intros Hpq. destruct (Sltb q p) eqn:Hqp; [|done].
  pose proof (Sltb_trans _ _ _ Hpq Hqp) as Hpp.
  by rewrite Sltb_irrefl in Hpp.
Qed.

(** [q ≤ p] and [u ≤ q] give [u ≤ p], in terms of [<]. *)
Lemma Snlt_trans p q u :
  Sltb p q = false → Sltb q u = false → Sltb p u = false.
Proof.
  intros Hpq Hqu. destruct (Sltb p u) eqn:Hpu; [|done].
  destruct (Sltb q p) eqn:Hqp.
  - pose proof (Sltb_trans _ _ _ Hqp Hpu). congruence.
  - pose proof (Sltb_total _ _ Hpq Hqp). subst. congruence.
Qed.



Lemma rect_min_comm p q : std_min p q = std_min q p.
Proof.
  unfold std_min. destruct (Sltb q p) eqn:Hqp, (Sltb p q) eqn:Hpq; try done.
  - apply Sltb_asym in Hqp. congruence.
  - by apply Sltb_total.
Qed.

Lemma rect_max_comm p q : std_max p q = std_max q p.
Proof.
  unfold std_max. destruct (Sltb q p) eqn:Hqp, (Sltb p q) eqn:Hpq; try done.
  - apply Sltb_asym in Hqp. congruence.
  - by apply Sltb_total.
Qed.

Lemma rect_min_cases p q : std_min p q = p ∨ std_min p q = q.
Proof. unfold std_min. destruct (Sltb q p); auto. Qed.

Lemma rect_max_cases p q : std_max p q = p ∨ std_max p q = q.
Proof. unfold std_max. destruct (Sltb p q); auto. Qed.

Lemma std_min_le_l p q : Sltb p (std_min p q) = false.
Proof.
  unfold std_min. destruct (Sltb q p) eqn:Hqp;
    [by apply Sltb_asym | apply Sltb_irrefl].
Qed.

Lemma std_min_le_r p q : Sltb q (std_min p q) = false.
Proof.
  unfold std_min. destruct (Sltb q p) eqn:Hqp; [apply Sltb_irrefl | done].
Qed.

Lemma std_max_ge_l p q : Sltb (std_max p q) p = false.
Proof.
  unfold std_max. destruct (Sltb p q) eqn:Hpq;
    [by apply Sltb_asym | apply Sltb_irrefl].
Qed.

Lemma std_max_ge_r p q : Sltb (std_max p q) q = false.
Proof.
  unfold std_max. destruct (Sltb p q) eqn:Hpq; [apply Sltb_irrefl | done].
Qed.

(** [x] is not below the larger of two bounds iff it is below neither. *)
Lemma std_max_lower x p q :
  Sltb x (std_max p q) = false ↔ Sltb x p = false ∧ Sltb x q = false.
Proof.
  split.
  - intros Hx. split.
    + eapply Snlt_trans; [exact Hx | apply std_max_ge_l].
    + eapply Snlt_trans; [exact Hx | apply std_max_ge_r].
  - intros [Hp Hq]. by destruct (rect_max_cases p q) as [-> | ->].
Qed.

Lemma std_min_upper x p q :
  Sltb (std_min p q) x = false ↔ Sltb p x = false ∧ Sltb q x = false.
Proof.
  split.
  - intros Hx. split.
    + eapply Snlt_trans; [apply std_min_le_l | exact Hx].
    + eapply Snlt_trans; [apply std_min_le_r | exact Hx].
  - intros [Hp Hq]. by destruct (rect_min_cases p q) as [-> | ->].
Qed.

Lemma isNull_true r :
  valid r → isNull r = true ↔ left r = right r ∨ top r = bottom r.
Proof.
  intros (Hl & Ht & Hr & Hb). unfold isNull, width, height.
  rewrite orb_true_iff, !Seqb_eq, !Ssub_zero by done.
  split; intros [-> | ->]; auto.
Qed.

(** X5: a rectangle whose members are values of the scalar type is null
    exactly when its left and right edges or its top and bottom edges
    coincide; an inverted rectangle is not null.  [setNull] and the
    default constructor give a null rectangle. *)
Theorem isNull_edges_coincide r :
  valid r → Srange (Szero (T := T)) →
  (isNull r = true ↔ left r = right r ∨ top r = bottom r)
  ∧ (Sltb (right r) (left r) = true → Sltb (bottom r) (top r) = true →
     isNull r = false)
  ∧ isNull (setNull r) = true ∧ isNull (ctor (T := T)) = true.
Proof.
  intros Hv Hzero. split_and!.
  - by apply isNull_true.
  - intros Hx Hy. destruct (isNull r) eqn:Hn; [|done].
    apply isNull_true in Hn; [|done].
    destruct Hn as [Hn | Hn]; rewrite Hn, Sltb_irrefl in *; done.
  - apply isNull_true; [done | by left].
  - apply isNull_true; [done | by left].
Qed.


(** X7: [intersect] never returns an inverted rectangle and does not
    depend on the order of the two; it is the zero rectangle when
    either is null; a point of both of two non-null rectangles lies in
    the result; and when the result is not the zero rectangle, its
    points are exactly the points of both. *)
Theorem intersect_common_points a b x y :
  ordered (intersect b a)
  ∧ intersect b a = intersect a b
  ∧ (isNull a = true ∨ isNull b = true → intersect b a = ctor)
  ∧ (isNull a = false → isNull b = false →
     inside a x y → inside b x y → inside (intersect b a) x y)
  ∧ (intersect b a ≠ ctor →
     inside (intersect b a) x y ↔ inside a x y ∧ inside b x y).
Proof.
  unfold intersect. split_and!.
  - destruct (isNull a || isNull b); [by split; apply Sltb_irrefl|].
    simpl. destruct (Sltb _ _ || Sltb _ _) eqn:Hinv.
    + by split; apply Sltb_irrefl.
    + by apply orb_false_iff in Hinv.
  - rewrite (orb_comm (isNull b)).
    destruct (isNull a || isNull b); [done|]. simpl.
    by rewrite (rect_max_comm (left a)), (rect_max_comm (top a)),
      (rect_min_comm (right a)), (rect_min_comm (bottom a)).
  - intros Hn. assert (isNull a || isNull b = true) as ->; [|done].
    destruct Hn as [-> | ->]; [done | apply orb_true_r].
  - intros -> -> (H1 & H2 & H3 & H4) (H5 & H6 & H7 & H8). simpl.
    assert (Sltb (std_min (right a) (right b)) (std_max (left a) (left b))
            = false) as Hxs.
    { eapply Snlt_trans; [apply std_min_upper | apply std_max_lower]; done. }
    assert (Sltb (std_min (bottom a) (bottom b)) (std_max (top a) (top b))
            = false) as Hys.
    { eapply Snlt_trans; [apply std_min_upper | apply std_max_lower]; done. }
    rewrite Hxs, Hys. unfold inside. simpl.
    rewrite !std_max_lower, !std_min_upper. done.
  - destruct (isNull a || isNull b); [done|]. simpl.
    destruct (Sltb _ _ || Sltb _ _); [done|]. intros _.
    unfold inside. simpl. rewrite !std_max_lower, !std_min_upper.
    tauto.
Qed.

End trect_facts.

Lemma longScalar_laws : ScalarLaws Z (SC := longScalar).
Proof.
  split; simpl.
  - intros a b. apply Z.eqb_eq.
  - unfold in_long, swrap64. intros a b Ha Hb.
    change (2 ^ 63) with 9223372036854775808 in *.
    change (2 ^ 64) with 18446744073709551616.
    split; [|intros ->; by rewrite Z.sub_diag].
    intros Hs. Z.div_mod_to_equations. lia.
  - apply Z.ltb_irrefl.
  - intros a b c. rewrite !Z.ltb_lt. lia.
  - intros a b. rewrite !Z.ltb_ge. lia.
Qed.

Lemma isNull_edges_coincide_witness :
  let r := TRect.Build 3 0 3 (2 ^ 63 - 1) in
  valid (SC := longScalar) r ∧ isNull (SC := longScalar) r = true
  ∧ isNull (SC := longScalar) (TRect.Build 5 5 1 1) = false.
Proof.
  intros r.
  assert (valid (SC := longScalar) r) as Hv by (repeat split; by vm_compute).
  assert (valid (SC := longScalar) (TRect.Build 5 5 1 1)) as Hv'
    by (repeat split; by vm_compute).
  assert (in_long 0) as H0 by (split; by vm_compute).
  destruct (isNull_edges_coincide (SL := longScalar_laws) r Hv H0)
    as (Hiff & _).
  destruct (isNull_edges_coincide (SL := longScalar_laws) _ Hv' H0)
    as (_ & Hinv & _).
  split; [exact Hv|]. split.
  - apply Hiff. by left.
  - by apply Hinv.
Defined.


Lemma intersect_common_points_witness :
  let a := TRect.Build 0 0 4 4 in
  let b := TRect.Build 2 1 6 3 in
  intersect (SC := longScalar) b a = TRect.Build 2 1 4 3
  ∧ intersect (SC := longScalar) b a = intersect (SC := longScalar) a b
  ∧ inside (SC := longScalar) (intersect (SC := longScalar) b a) 3 2
  ∧ intersect (SC := longScalar) (TRect.Build 5 5 6 6) a
    = ctor (SC := longScalar).
Proof.
  intros a b.
  destruct (intersect_common_points (SL := longScalar_laws) a b 3 2)
    as (_ & Hcomm & _ & Hin & _).
  split; [reflexivity|]. split; [exact Hcomm|]. split; [|reflexivity].
  apply Hin; by vm_compute.
Defined.

End TRectFacts.

(* ===================================================================== *)
(** * Properties of [Box] and [PixelBox] *)
(* ===================================================================== *)

Module BoxFacts.
Import Box.

Section box_facts.
Context {Ext : Externals}.

Implicit Types (a b c box def : Box.t).

Lemma contains_true def box :
  contains def box = true ↔
    left box ≤ left def ∧ top box ≤ top def ∧ front box ≤ front def
    ∧ right def ≤ right box ∧ bottom def ≤ bottom box ∧ back def ≤ back box.
Proof.
  unfold contains. rewrite !andb_true_iff, !Z.leb_le. tauto.
Qed.

Lemma wrap64_small n : in_size_t n → wrap64 n = n.
Proof. unfold in_size_t, wrap64. intros Hn. by apply Z.mod_small. Qed.

Lemma wf_dimensions box :
  wf box →
  getWidth box = right box - left box
  ∧ getHeight box = bottom box - top box
  ∧ getDepth box = back box - front box.
Proof.
  unfold wf, in_size_t, getWidth, getHeight, getDepth.
  intros (Hl & Ht & Hr & Hb & Hf & Hk & Hx & Hy & Hz).
  split_and!; apply wrap64_small; unfold in_size_t; lia.
Qed.

(** X8: [contains] is a partial order on boxes: every box contains
    itself, containment passes along a chain of boxes, and two boxes that
    contain each other are the same box. *)
Theorem contains_partial_order a b c :
  contains a a = true
  ∧ (contains b a = true → contains c b = true → contains c a = true)
  ∧ (contains b a = true → contains a b = true → a = b).
Proof.
  rewrite !contains_true. split; [|split].
  - lia.
  - lia.
  - intros H1 H2. destruct a, b. simpl in *. f_equal; lia.
Qed.

(** X9: in a debug build the four-argument constructor fails its
    assertion exactly when the right edge lies before the left or the
    bottom before the top, and the six-argument one also when the back
    lies before the front; otherwise the box has the edges given, the
    four-argument box with front 0 and back 1, and so depth 1.  A release
    build constructs the box whatever the edges. *)
Theorem Box_ctor_assertion (l t_ ff r b_ bb : Z) :
  (NDEBUG = false →
   (Box.ctor4 l t_ r b_ = Fail AssertionFailed ↔ r < l ∨ b_ < t_)
   ∧ (Box.ctor6 l t_ ff r b_ bb = Fail AssertionFailed
      ↔ r < l ∨ b_ < t_ ∨ bb < ff)
   ∧ (l ≤ r → t_ ≤ b_ →
      Box.ctor4 l t_ r b_ = Ok (Box.Build l t_ r b_ 0 1)
      ∧ getDepth (Box.Build l t_ r b_ 0 1) = 1)
   ∧ (l ≤ r → t_ ≤ b_ → ff ≤ bb →
      Box.ctor6 l t_ ff r b_ bb = Ok (Box.Build l t_ r b_ ff bb)))
  ∧ (NDEBUG = true →
     Box.ctor4 l t_ r b_ = Ok (Box.Build l t_ r b_ 0 1)
     ∧ Box.ctor6 l t_ ff r b_ bb = Ok (Box.Build l t_ r b_ ff bb)).
Proof.
  unfold Box.ctor4, Box.ctor6, assert_. split.
  - intros ->. simpl. split_and!.
    + destruct (Z.leb_spec l r), (Z.leb_spec t_ b_); simpl;
        split; (done || lia || (intros; done)).
    + destruct (Z.leb_spec l r), (Z.leb_spec t_ b_), (Z.leb_spec ff bb);
        simpl; split; (done || lia || (intros; done)).
    + intros Hx Hy.
      destruct (Z.leb_spec l r), (Z.leb_spec t_ b_); try lia. done.
    + intros Hx Hy Hz.
      destruct (Z.leb_spec l r), (Z.leb_spec t_ b_), (Z.leb_spec ff bb);
        try lia. done.
  - by intros ->.
Qed.


(** Without the assertion the width wraps: an inverted box is very
    wide. *)
Lemma inverted_box_width :
  getWidth (Box.Build 1 0 0 1 0 1) = 2 ^ 64 - 1.
Proof. reflexivity. Qed.

End box_facts.

Lemma contains_partial_order_witness :
  let a := Box.Build 0 0 9 9 0 1 in
  let b := Box.Build 1 1 8 8 0 1 in
  let c := Box.Build 2 2 3 3 0 1 in
  contains b a = true ∧ contains c b = true ∧ contains c a = true.
Proof.
  intros a b c.
  destruct (contains_partial_order a b c) as (_ & Htrans & _).
  split; [reflexivity|]. split; [reflexivity|].
  apply Htrans; reflexivity.
Defined.

Lemma Box_ctor_assertion_witness :
  Box.ctor4 (Ext := Sample.externals) 4 0 2 1 = Fail AssertionFailed
  ∧ Box.ctor4 (Ext := Sample.externals) 2 0 4 1
    = Ok (Box.Build 2 0 4 1 0 1).
Proof.
  destruct (Box_ctor_assertion (Ext := Sample.externals) 4 0 0 2 1 1)
    as ((Hfail & _) & _); [reflexivity|].
  destruct (Box_ctor_assertion (Ext := Sample.externals) 2 0 0 4 1 1)
    as ((_ & _ & Hok & _) & _); [reflexivity|].
  split.
  - apply Hfail. left. lia.
  - apply Hok; lia.
Defined.


End BoxFacts.

Module PixelBoxFacts.
Import PixelBox.

Section pixel_box_facts.
Context {Ext : Externals}.

Implicit Types (p : PixelBox.t).

(** X11: a pixel box is consecutive exactly when it has no row skip and
    no slice skip, provided its pitches are [size_t] values and its box
    is well formed; [setConsecutive], and so both constructors, give a
    consecutive pixel box with the pitches [width] and [width * height]
    modulo 2^64, and leave box, format and data alone. *)
Theorem isConsecutive_no_skip p :
  Box.wf (box p) → in_size_t (rowPitch p) → in_size_t (slicePitch p) →
  (isConsecutive p = true ↔ getRowSkip p = 0 ∧ getSliceSkip p = 0)
  ∧ isConsecutive (setConsecutive p) = true
  ∧ getRowSkip (setConsecutive p) = 0
  ∧ getSliceSkip (setConsecutive p) = 0
  ∧ rowPitch (setConsecutive p) = Box.right (box p) - Box.left (box p)
  ∧ box (setConsecutive p) = box p
  ∧ format (setConsecutive p) = format p
  ∧ data (setConsecutive p) = data p.
Proof.
  intros Hwf Hrow Hslice.
  destruct (BoxFacts.wf_dimensions _ Hwf) as (Hw & Hh & Hd).
  assert (0 ≤ Box.getWidth (box p) < 2 ^ 64) as Hwr
    by (unfold Box.getWidth, wrap64; apply Z.mod_pos_bound; lia).
  unfold isConsecutive, getRowSkip, getSliceSkip, setConsecutive. simpl.
  set (w := Box.getWidth (box p)) in *.
  set (h := Box.getHeight (box p)) in *.
  unfold in_size_t in *. split_and!; try done.
  - rewrite andb_true_iff, !Z.eqb_eq. split.
    + intros [-> ->]. rewrite Z.sub_diag. split; [done|].
      rewrite (Z.mul_comm h w), Z.sub_diag. done.
    + intros [Hrs Hss].
      assert (rowPitch p = w) as Hr.
      { unfold wrap64 in Hrs.
        change (2 ^ 64) with 18446744073709551616 in *.
        Z.div_mod_to_equations. lia. }
      split; [done|]. rewrite Hr in Hss. rewrite (Z.mul_comm w h).
      assert (0 ≤ wrap64 (h * w) < 2 ^ 64) as Hm
        by (unfold wrap64; apply Z.mod_pos_bound; lia).
      revert Hss Hm. generalize (wrap64 (h * w)). intros m Hss Hm.
      unfold wrap64 in Hss.
      change (2 ^ 64) with 18446744073709551616 in *.
      Z.div_mod_to_equations. lia.
  - by rewrite !Z.eqb_refl.
  - by rewrite Z.sub_diag.
  - by rewrite (Z.mul_comm h w), Z.sub_diag.
Qed.

(** X12: the constructor from a width, a height and a depth never fails
    for [size_t] arguments, in either build; the pixel box spans these
    extents from the origin, is consecutive, and its pitches are the
    width and the product of width and height modulo 2^64. *)
Theorem PixelBox_ctor_whd (width height depth : Z) pixelFormat pixelData
    garbage :
  in_size_t width → in_size_t height → in_size_t depth →
  ∃ p, ctor_whd width height depth pixelFormat pixelData garbage = Ok p
       ∧ box p = Box.Build 0 0 width height 0 depth
       ∧ Box.getWidth (box p) = width
       ∧ Box.getHeight (box p) = height
       ∧ Box.getDepth (box p) = depth
       ∧ rowPitch p = width
       ∧ slicePitch p = wrap64 (width * height)
       ∧ isConsecutive p = true.
Proof.
  unfold in_size_t. intros Hw Hh Hd.
  assert (Box.ctor6 0 0 0 width height depth
          = Ok (Box.Build 0 0 width height 0 depth)) as Hbox.
  { unfold Box.ctor6, assert_. simpl.
    destruct NDEBUG; [done|].
    destruct (Z.leb_spec 0 width), (Z.leb_spec 0 height),
      (Z.leb_spec 0 depth); try lia. done. }
  eexists. unfold ctor_whd. rewrite Hbox. simpl. split; [reflexivity|].
  unfold setConsecutive, isConsecutive, Box.getWidth, Box.getHeight,
    Box.getDepth. simpl. rewrite !Z.sub_0_r.
  rewrite !BoxFacts.wrap64_small by done.
  split_and!; try done. by rewrite !Z.eqb_refl.
Qed.

End pixel_box_facts.

Lemma isConsecutive_no_skip_witness :
  let p := PixelBox.Build (Box.Build 0 0 4 3 0 1) None 0%nat 6 18 in
  isConsecutive p = false ∧ getRowSkip p = 2 ∧ getSliceSkip p = 0
  ∧ isConsecutive (setConsecutive p) = true.
Proof.
  intros p.
  assert (Box.wf (box p)) as Hwf by (repeat split; by vm_compute).
  assert (in_size_t 6) as H6 by (split; by vm_compute).
  assert (in_size_t 18) as H18 by (split; by vm_compute).
  destruct (isConsecutive_no_skip p Hwf H6 H18)
    as (_ & Hset & _).
  split_and!; [reflexivity | reflexivity | reflexivity | exact Hset].
Defined.

Lemma PixelBox_ctor_whd_witness :
  ∃ p, ctor_whd (Ext := Sample.externals) 4 3 2 0%nat None (0, 0) = Ok p
       ∧ rowPitch p = 4 ∧ slicePitch p = 12 ∧ isConsecutive p = true.
Proof.
  assert (in_size_t 4) as H4 by (split; by vm_compute).
  assert (in_size_t 3) as H3 by (split; by vm_compute).
  assert (in_size_t 2) as H2 by (split; by vm_compute).
  destruct (PixelBox_ctor_whd (Ext := Sample.externals) 4 3 2 0%nat None
              (0, 0) H4 H3 H2)
    as (p & Hp & _ & _ & _ & _ & Hrow & Hslice & Hcons).
  exists p. split_and!; [exact Hp | exact Hrow | exact Hslice | exact Hcons].
Defined.

End PixelBoxFacts.

(* ===================================================================== *)
(** * Properties of [Pool], [NameGenerator], [efficientVectorRemove] *)
(* ===================================================================== *)

Module PoolFacts.
Import Pool.

Section pool_facts.
Context {T : Type} (T_default : T).

Implicit Types (p : Pool.t (T := T)) (i : T) (l : list T).

Lemma addItem_many l p : foldl (λ q i, addItem i q) p l = reverse l ++ p.
Proof.
  revert p. induction l as [|i l IH]; intros p; simpl; [done|].
  by rewrite IH, reverse_cons, <- app_assoc.
Qed.

Lemma removeMany_prefix l p :
  removeMany T_default (length l) (l ++ p) = ((λ i, (true, i)) <$> l, p).
Proof.
  induction l as [|i l IH]; simpl; [done|]. by rewrite IH.
Qed.

Lemma removeMany_empty n :
  removeMany T_default n [] = (replicate n (false, T_default), []).
Proof. induction n as [|n IH]; simpl; [done|]. by rewrite IH. Qed.

(** X13: the pool hands items back last in, first out: an item added is
    the next one removed, and the pool is then as before; items added in
    a row come back in reverse order, after which the pool is as it was;
    an empty or cleared pool answers [false], with a default item, as
    often as it is asked, and stays empty. *)
Theorem pool_last_in_first_out i l p n :
  removeItem T_default (addItem i p) = ((true, i), p)
  ∧ removeMany T_default (length l) (foldl (λ q i, addItem i q) p l)
    = ((λ i, (true, i)) <$> reverse l, p)
  ∧ removeMany T_default n (clear p) = (replicate n (false, T_default), [])
  ∧ removeItem T_default ctor = ((false, T_default), ctor).
Proof.
  split_and!; try done.
  - by rewrite addItem_many, <- (length_reverse l), removeMany_prefix.
  - apply removeMany_empty.
Qed.

End pool_facts.
End PoolFacts.

Module NameGeneratorFacts.
Import NameGenerator.

Implicit Types (g : NameGenerator.t) (n j : nat).

Lemma wrap64_add_l a b : wrap64 (wrap64 a + b) = wrap64 (a + b).
Proof. unfold wrap64. by rewrite Zplus_mod_idemp_l. Qed.

Lemma wrap64_range a : in_size_t (wrap64 a).
Proof. unfold in_size_t, wrap64. apply Z.mod_pos_bound. lia. Qed.

Lemma decimal_inj a b : 0 ≤ a → 0 ≤ b → decimal a = decimal b → a = b.
Proof.
  unfold decimal. intros Ha Hb Heq. apply (inj pretty) in Heq. lia.
Qed.

Lemma generateMany_names n g :
  in_size_t (mNext g) →
  generateMany n g
  = ((λ j, mPrefix g +:+ decimal (wrap64 (mNext g + Z.of_nat j)))
       <$> seq 0 n,
     Build (mPrefix g) (wrap64 (mNext g + Z.of_nat n))).
Proof.
  revert g. induction n as [|n IH]; intros g Hg.
  - simpl. rewrite Z.add_0_r, BoxFacts.wrap64_small by done. by destruct g.
  - cbn [generateMany]. unfold generate.
    rewrite IH by apply wrap64_range. cbn [mPrefix mNext].
    rewrite wrap64_add_l.
    replace (mNext g + 1 + Z.of_nat n) with (mNext g + Z.of_nat (S n)) by lia.
    f_equal. cbn [seq fmap list_fmap]. f_equal.
    + by rewrite Z.add_0_r, BoxFacts.wrap64_small.
    + rewrite <- fmap_S_seq, <- list_fmap_compose.
      apply list_fmap_ext. intros _ j _. simpl. rewrite wrap64_add_l.
      do 3 f_equal. lia.
Qed.

(** X14: a generator whose counter is an [unsigned long long] gives, in
    up to 2^64 calls of [generate] in a row, names that are all
    different: the prefix followed by the decimal digits of the counter,
    which goes up by one with each call, modulo 2^64.  At the counter
    2^64 - 1 the next call takes the counter to 0. *)
Theorem generated_names_distinct n g :
  in_size_t (mNext g) → Z.of_nat n ≤ 2 ^ 64 →
  NoDup (fst (generateMany n g))
  ∧ length (fst (generateMany n g)) = n
  ∧ (∀ j, (j < n)%nat →
       fst (generateMany n g) !! j
       = Some (mPrefix g +:+ decimal (wrap64 (mNext g + Z.of_nat j))))
  ∧ getNext (snd (generateMany n g)) = wrap64 (mNext g + Z.of_nat n)
  ∧ (mNext g = 2 ^ 64 - 1 → getNext (snd (generate g)) = 0).
Proof.
  intros Hg Hn. rewrite generateMany_names by done. cbn [fst snd].
  split_and!.
  - apply NoDup_fmap_2_strong; [|apply NoDup_seq].
    intros j1 j2 Hj1 Hj2 Heq.
    apply elem_of_seq in Hj1, Hj2.
    apply (inj (String.app _)) in Heq.
    apply decimal_inj in Heq; [|apply wrap64_range..].
    unfold in_size_t, wrap64 in *.
    change (2 ^ 64) with 18446744073709551616 in *.
    Z.div_mod_to_equations. lia.
  - by rewrite length_fmap, length_seq.
  - intros j Hj. rewrite list_lookup_fmap, lookup_seq_lt by done. done.
  - done.
  - intros Hmax. unfold generate, getNext. simpl. by rewrite Hmax.
Qed.

Lemma generated_names_distinct_witness :
  let g := setNext (2 ^ 64 - 2) (ctor "Ogre/MO") in
  fst (generateMany 3 g)
  = ["Ogre/MO18446744073709551614"; "Ogre/MO18446744073709551615";
     "Ogre/MO0"]%string
  ∧ NoDup (fst (generateMany 3 g))
  ∧ fst (generate (reset g)) = "Ogre/MO1"%string.
Proof.
  intros g.
  assert (in_size_t (mNext g)) as Hg by (split; by vm_compute).
  assert (Z.of_nat 3 ≤ 2 ^ 64) as Hn by by vm_compute.
  destruct (generated_names_distinct 3 g Hg Hn) as (Hnd & _).
  split; [by vm_compute|]. split; [exact Hnd | by vm_compute].
Defined.

End NameGeneratorFacts.

Section vector_remove_facts.
Context {T : Type}.

Implicit Types (l front : list T) (idx j : nat) (back : T).

(** The container after the call, by the position of the iterator. *)
Lemma efficientVectorRemove_snoc front back idx :
  (idx ≤ length front)%nat →
  efficientVectorRemove (front ++ [back]) idx
  = Some (if decide (idx = length front) then front
          else <[idx := back]> front, idx).
Proof.
  intros Hidx. unfold efficientVectorRemove.
  destruct (lookup_lt_is_Some_2 (front ++ [back]) idx) as [x ->].
  { rewrite length_app. simpl. lia. }
  rewrite last_snoc, length_insert, length_app. simpl.
  replace (length front + 1 - 1)%nat with (length front) by lia.
  do 2 f_equal. case_decide as Hlast.
  - subst idx. rewrite insert_app_r_alt, Nat.sub_diag by lia. simpl.
    apply take_app_length.
  - rewrite insert_app_l by lia.
    apply take_app_length'. by rewrite length_insert.
Qed.

(** X15: [efficientVectorRemove] on an iterator that points at an
    element removes exactly that element: the container is one shorter
    and holds the other elements, each as often as before; the elements
    in front of the position and those behind it, the last apart, keep
    their places, the last element takes the freed place, and the
    iterator returned is the position itself.  Removing at the last
    position is [pop_back]; an iterator that points at no element has no
    result. *)
Theorem efficientVectorRemove_removes l idx :
  ((idx < length l)%nat →
   ∃ l',
     efficientVectorRemove l idx = Some (l', idx)
     ∧ length l' = (length l - 1)%nat
     ∧ l' ≡ₚ delete idx l
     ∧ (∀ j, (j < length l - 1)%nat → j ≠ idx → l' !! j = l !! j)
     ∧ ((idx < length l - 1)%nat → l' !! idx = last l)
     ∧ (idx = (length l - 1)%nat → l' = take idx l))
  ∧ ((length l ≤ idx)%nat → efficientVectorRemove l idx = None).
Proof.
  split.
  - intros Hidx. destruct (last l) as [back|] eqn:Hback.
    2: { apply last_None in Hback. subst. simpl in Hidx. lia. }
    apply last_Some in Hback as [front ->].
    rewrite length_app in *. cbn [length] in *.
    replace (length front + 1 - 1)%nat with (length front) by lia.
    rewrite efficientVectorRemove_snoc by lia. eexists. split; [done|].
    case_decide as Hlast.
    + subst idx. split_and!.
      * done.
      * rewrite delete_take_drop, take_app_length, drop_ge.
        { by rewrite app_nil_r. }
        rewrite length_app. simpl. lia.
      * intros j Hj _. by rewrite lookup_app_l.
      * lia.
      * intros _. by rewrite take_app_length.
    + split_and!.
      * by rewrite length_insert.
      * rewrite insert_take_drop, delete_take_drop by lia.
        rewrite take_app_le, drop_app_le by lia.
        apply Permutation_app_head. apply Permutation_cons_append.
      * intros j Hj Hne.
        by rewrite list_lookup_insert_ne, lookup_app_l by done.
      * intros _. by rewrite list_lookup_insert_eq by lia.
      * lia.
  - intros Hidx. unfold efficientVectorRemove.
    by rewrite lookup_ge_None_2.
Qed.

End vector_remove_facts.

Lemma efficientVectorRemove_removes_witness :
  efficientVectorRemove [10; 11; 12; 13; 14] 1%nat
  = Some ([10; 14; 12; 13], 1%nat)
  ∧ [10; 14; 12; 13] ≡ₚ delete 1%nat [10; 11; 12; 13; 14]
  ∧ efficientVectorRemove [10; 11] 1%nat = Some ([10], 1%nat)
  ∧ efficientVectorRemove [10; 11] 2%nat = None.
Proof.
  destruct (efficientVectorRemove_removes [10; 11; 12; 13; 14] 1%nat)
    as (Hin & _).
  destruct Hin as (l' & Hl' & _ & Hperm & _); [simpl; lia|].
  destruct (efficientVectorRemove_removes [10; 11] 2%nat) as (_ & Hout).
  injection Hl' as <-.
  split; [reflexivity|]. split; [exact Hperm|]. split; [reflexivity|].
  apply Hout. simpl. lia.
Defined.

(* ===================================================================== *)
(** * More on [MovableObject] *)
(* ===================================================================== *)

Section movable_object_more_facts.
Context {Ext : Externals}.

Implicit Types (o : MovableObject) (w : World) (this : ObjId) (sn : NodeId).

(** X16: [_notifyAttached] does not detach: told of a new parent while
    it still has one, the object fails the assertion in a debug build,
    whichever the two nodes; in a release build it takes the new parent
    and no node is touched, so the old node goes on listing the
    object. *)
Theorem notifyAttached_while_attached this o sn sn' w :
  objects w !! this = Some o → mParentNode o = Some sn →
  (mIndex (mObjectData o) < length (mParents (mObjectData o)))%nat →
  (NDEBUG = false →
   _notifyAttached this (Some sn') w = Fail AssertionFailed)
  ∧ (NDEBUG = true →
     ∃ w', _notifyAttached this (Some sn') w = Ok ((), w')
           ∧ objects w' = <[this := withParent (Some sn') o]> (objects w)
           ∧ nodes w' = nodes w).
Proof.
  intros Hobj Hpar Hidx. unfold _notifyAttached, assert_, arraySet.
  unfold_M. rewrite Hobj, Hpar. split; intros ->; [done|]. simpl.
  destruct (decide _) as [_|Hn]; [|done].
  destruct (mListener o); [destruct (bool_decide _)|];
    simpl; eexists; split_and!; done.
Qed.

(** X17: the listener hears of an attachment exactly when the parent
    changes: [objectAttached] when an unattached object gets a parent,
    [objectDetached] when an attached object loses it, nothing when an
    unattached object is told again that it has no parent, and nothing
    ever without a listener.  No other listener call is made. *)
Theorem notifyAttached_listener this o parent w :
  objects w !! this = Some o →
  mParentNode o = None ∨ parent = None →
  (mIndex (mObjectData o) < length (mParents (mObjectData o)))%nat →
  ∃ w', _notifyAttached this parent w = Ok ((), w')
    ∧ (mListener o = None → events w' = events w)
    ∧ (∀ l sn, mListener o = Some l → mParentNode o = None →
         parent = Some sn → events w' = events w ++ [objectAttached l this])
    ∧ (∀ l sn, mListener o = Some l → mParentNode o = Some sn →
         parent = None → events w' = events w ++ [objectDetached l this])
    ∧ (mParentNode o = None → parent = None → events w' = events w).
Proof.
  intros Hobj Hnull Hidx. unfold _notifyAttached, assert_, arraySet.
  unfold_M. rewrite Hobj.
  assert (is_null (mParentNode o) || is_null parent = true) as ->
    by (destruct Hnull as [-> | ->]; simpl; [done | apply orb_true_r]).
  destruct (decide _) as [_|Hn]; [|done].
  assert ((if NDEBUG then Ok () else Ok ()) = Ok ()) as ->
    by by destruct NDEBUG.
  simpl. destruct (mListener o) as [l|] eqn:Hl.
  - case_bool_decide as Hsame; simpl.
    + destruct parent as [sn|] eqn:Hp; simpl; eexists;
        (split; [reflexivity|]); simpl; split_and!; try done;
        intros; simplify_eq; congruence.
    + destruct parent as [sn|] eqn:Hp; simpl; eexists;
        (split; [reflexivity|]); simpl; split_and!; try done;
        intros; simplify_eq; try done; congruence.
  - eexists. split; [reflexivity|]. split_and!; try done.
Qed.

(** X18: [setRenderQueueGroupAndPriority] with a queue id in range, or
    in a release build, stores the queue id and the priority and nothing
    else; a later [setRenderQueueGroup] changes the queue id and keeps
    the priority.  With a queue id out of range a debug build fails the
    assertion before the priority is stored. *)
Theorem setRenderQueueGroupAndPriority_stores (queueID queueID' : uint8)
    (priority : ushort) o :
  let o' := set_mRenderQueuePriority priority
              (set_mRenderQueueID queueID o) in
  ((NDEBUG = true ∨ queueID ≤ RENDER_QUEUE_MAX) →
   setRenderQueueGroupAndPriority queueID priority o = Ok o'
   ∧ getRenderQueueGroup o' = queueID
   ∧ mRenderQueuePriority o' = priority
   ∧ set_mRenderQueuePriority (mRenderQueuePriority o)
       (set_mRenderQueueID (mRenderQueueID o) o') = o
   ∧ ((NDEBUG = true ∨ queueID' ≤ RENDER_QUEUE_MAX) →
      ∃ o'', setRenderQueueGroup queueID' o' = Ok o''
             ∧ getRenderQueueGroup o'' = queueID'
             ∧ mRenderQueuePriority o'' = priority))
  ∧ (NDEBUG = false → RENDER_QUEUE_MAX < queueID →
     setRenderQueueGroupAndPriority queueID priority o
     = Fail AssertionFailed).
Proof.
  intros o'.
  assert (∀ q (x : MovableObject),
            NDEBUG = true ∨ q ≤ RENDER_QUEUE_MAX →
            setRenderQueueGroup q x = Ok (set_mRenderQueueID q x)) as Hset.
  { intros q x Hq. unfold setRenderQueueGroup, assert_.
    destruct NDEBUG; [done|]. destruct Hq as [Hq|Hq]; [done|].
    by destruct (Z.leb_spec q RENDER_QUEUE_MAX); [|lia]. }
  split.
  - intros Hq. unfold setRenderQueueGroupAndPriority.
    rewrite Hset by done. split_and!; try done.
    + by destruct o.
    + intros Hq'. eexists. by rewrite Hset.
  - intros Hdbg Hq. unfold setRenderQueueGroupAndPriority,
      setRenderQueueGroup, assert_. rewrite Hdbg.
    by destruct (Z.leb_spec queueID RENDER_QUEUE_MAX); [lia|].
Qed.

(** X19: a release build has no staleness flag: [_notifyMoved] leaves
    every object and node as it was, and [getWorldAabb] goes on
    returning the box in the object's slot, although the owner has
    moved; only the listener is told. *)
Theorem release_getWorldAabb_after_move this o (box : Aabb) w :
  NDEBUG = true →
  objects w !! this = Some o →
  mWorldAabb (mObjectData o) !! mIndex (mObjectData o) = Some box →
  ∃ w', _notifyMoved this w = Ok ((), w')
        ∧ objects w' = objects w ∧ nodes w' = nodes w
        ∧ (∀ l, mListener o = Some l →
             events w' = events w ++ [objectMoved l this])
        ∧ getWorldAabb o = Ok box
        ∧ getWorldAabb (set_mCachedAabbOutOfDate true o) = Ok box.
Proof.
  intros Hrel Hobj Hbox. unfold _notifyMoved. unfold_M.
  rewrite Hobj, Hrel. simpl.
  assert (getWorldAabb o = Ok box
          ∧ getWorldAabb (set_mCachedAabbOutOfDate true o) = Ok box)
    as [Hg1 Hg2].
  { unfold getWorldAabb, assert_, arrayGet. rewrite Hrel. simpl.
    by rewrite Hbox. }
  destruct (mListener o) as [l|]; simpl; eexists;
    (split; [reflexivity|]); simpl; rewrite insert_id by done;
    split_and!; try done.
  intros l' [= <-]. done.
Qed.

(** X20: [getReceivesShadows] is true exactly when some renderable of
    the object has no technique or a technique whose material receives
    shadows; an object without renderables receives none, and the order
    of the renderables does not matter. *)
Theorem getReceivesShadows_exists (renderables renderables' : list Renderable) :
  (getReceivesShadows renderables = true ↔
     ∃ rend, rend ∈ renderables
       ∧ (getTechnique rend = None
          ∨ ∃ tech, getTechnique rend = Some tech
                    ∧ getParent_getReceiveShadows tech = true))
  ∧ getReceivesShadows [] = false
  ∧ (renderables ≡ₚ renderables' →
     getReceivesShadows renderables = getReceivesShadows renderables').
Proof.
  assert (∀ (l : list Renderable) acc,
            foldl (λ visitor rend, visit rend visitor) acc l = true ↔
              acc = true ∨ ∃ rend, rend ∈ l
                ∧ (getTechnique rend = None
                   ∨ ∃ tech, getTechnique rend = Some tech
                       ∧ getParent_getReceiveShadows tech = true))
    as Hfold.
  { induction l as [|r l IH]; intros acc; simpl.
    - split; [by left|]. intros [?|(rend & Hin & _)]; [done|].
      by apply elem_of_nil in Hin.
    - rewrite IH. unfold visit. split.
      + intros [Hacc | (rend & Hin & Hr)].
        * apply orb_true_iff in Hacc as [Hacc | Hnull].
          { apply orb_true_iff in Hacc as [Hacc | Htech]; [by left|].
            right. exists r. split; [apply elem_of_cons; by left|].
            destruct (getTechnique r) as [tech|]; [|by left].
            right. by exists tech. }
          right. exists r. split; [apply elem_of_cons; by left|].
          destruct (getTechnique r); [done | by left].
        * right. exists rend. split; [apply elem_of_cons; by right | done].
      + intros [-> | (rend & Hin & Hr)]; [by left|].
        apply elem_of_cons in Hin as [-> | Hin].
        * left. destruct Hr as [-> | (tech & -> & ->)]; simpl;
            [apply orb_true_r | by rewrite orb_true_r].
        * right. by exists rend. }
  assert (∀ l : list Renderable,
            getReceivesShadows l = true ↔
              ∃ rend, rend ∈ l
                ∧ (getTechnique rend = None
                   ∨ ∃ tech, getTechnique rend = Some tech
                       ∧ getParent_getReceiveShadows tech = true))
    as Hiff.
  { intros l. unfold getReceivesShadows. rewrite Hfold.
    unfold MORecvShadVisitor_ctor. split; [by intros [?|?] | by right]. }
  split_and!.
  - apply Hiff.
  - done.
  - intros Hperm.
    destruct (getReceivesShadows renderables) eqn:H1,
      (getReceivesShadows renderables') eqn:H2; try done.
    + apply Hiff in H1 as (rend & Hin & Hr). rewrite Hperm in Hin.
      rewrite <- H2. symmetry. apply Hiff. by exists rend.
    + apply Hiff in H2 as (rend & Hin & Hr). rewrite <- Hperm in Hin.
      rewrite <- H1. apply Hiff. by exists rend.
Qed.

(** X21: an object that no factory created reports every type flag: a
    newly constructed object has the type flags 0xFFFFFFFF, whose
    conjunction with a 32-bit mask is the mask itself; an object with a
    creator reports the flags of its factory. *)
Theorem getTypeFlags_without_creator (factoryTypeFlags : FactoryId → uint32)
    (id : IdType) (root : option Root) (raw o : MovableObject)
    (mask : uint32) :
  getTypeFlags factoryTypeFlags (MovableObject_ctor id root raw) = Z.ones 32
  ∧ (0 ≤ mask < 2 ^ 32 →
     Z.land (getTypeFlags factoryTypeFlags (MovableObject_ctor id root raw))
            mask = mask)
  ∧ (∀ creator, mCreator o = Some creator →
       getTypeFlags factoryTypeFlags o = factoryTypeFlags creator).
Proof.
  split_and!.
  - done.
  - intros Hmask. unfold getTypeFlags. simpl.
    change 0xFFFFFFFF with (Z.ones 32).
    rewrite Z.land_comm, Z.land_ones by lia. by apply Z.mod_small.
  - intros creator Hc. unfold getTypeFlags. by rewrite Hc.
Qed.

(** X27: [getWorldAabbUpdated] dereferences the parent node without a
    test: on an unattached object, or on an object whose node is gone, it
    is a null dereference, and without a slot in the column of local
    boxes an access out of range.  When it returns, it has written the
    object's slot of the column of world boxes and nothing else of the
    object: parent, local boxes, the other slots, the light list and the
    listener are as before, no listener call is made, and the lights and
    the set of nodes of the scene are unchanged. *)
Theorem getWorldAabbUpdated_frame {SG : SceneGraph} this w :
  (objects w !! this = None → getWorldAabbUpdated this w = Fail NullPointer)
  ∧ (∀ o, objects w !! this = Some o →
       (mParentNode o = None →
        getWorldAabbUpdated this w = Fail NullPointer)
       ∧ (∀ sn, mParentNode o = Some sn → nodes w !! sn = None →
            getWorldAabbUpdated this w = Fail NullPointer)
       ∧ (∀ sn node, mParentNode o = Some sn → nodes w !! sn = Some node →
            mLocalAabb (mObjectData o) !! mIndex (mObjectData o) = None →
            getWorldAabbUpdated this w = Fail OutOfRange)
       ∧ (∀ box w', getWorldAabbUpdated this w = Ok (box, w') →
            ∃ o', objects w' !! this = Some o'
              ∧ mParentNode o' = mParentNode o
              ∧ mListener o' = mListener o
              ∧ mLightList o' = mLightList o
              ∧ mIndex (mObjectData o') = mIndex (mObjectData o)
              ∧ mParents (mObjectData o') = mParents (mObjectData o)
              ∧ mLocalAabb (mObjectData o') = mLocalAabb (mObjectData o)
              ∧ mWorldAabb (mObjectData o')
                = <[mIndex (mObjectData o) := box]>
                    (mWorldAabb (mObjectData o))
              ∧ lights w' = lights w ∧ events w' = events w
              ∧ dom (nodes w') = dom (nodes w)
              ∧ (∀ p, p ≠ this → objects w' !! p = objects w !! p))).
Proof.
  unfold getWorldAabbUpdated, updateSingleWorldAabb. split.
  - intros Hnone. unfold_M. by rewrite Hnone.
  - intros o Hobj. unfold_M. rewrite Hobj. split_and!.
    + by intros ->.
    + intros sn -> Hn. by rewrite Hn.
    + intros sn node -> Hn Hl. rewrite Hn.
      destruct (_getFullTransformUpdated node). simpl.
      unfold arrayGet. by rewrite Hl.
    + intros box w'.
      destruct (mParentNode o) as [sn|] eqn:Hpar; [|done].
      destruct (nodes w !! sn) as [node|] eqn:Hn; [|done].
      destruct (_getFullTransformUpdated node) as [m node']. simpl.
      unfold arrayGet, arraySet.
      destruct (mLocalAabb (mObjectData o) !! mIndex (mObjectData o))
        as [lbox|]; [|done].
      destruct (decide _) as [Hidx|]; [|done].
      intros [= <- <-]. simpl. eexists. split; [apply lookup_insert_eq|].
      destruct NDEBUG; simpl; split_and!; try done;
        try (rewrite dom_insert_L; apply elem_of_dom_2 in Hn;
             apply subseteq_union_1_L; by apply singleton_subseteq_l);
        intros p Hp; by rewrite lookup_insert_ne.
Qed.

End movable_object_more_facts.

Lemma notifyAttached_while_attached_witness :
  _notifyAttached 0%nat (Some 1%nat) (SampleBuild.world false (Some 0%nat))
  = Fail AssertionFailed
  ∧ ∃ w', _notifyAttached 0%nat (Some 1%nat)
            (SampleBuild.world true (Some 0%nat)) = Ok ((), w')
          ∧ nodes w' = nodes (SampleBuild.world true (Some 0%nat)).
Proof.
  destruct (notifyAttached_while_attached 0%nat
              (SampleBuild.object false (Some 0%nat) (Some 7%nat))
              0%nat 1%nat (SampleBuild.world false (Some 0%nat))
              eq_refl eq_refl ltac:(simpl; lia)) as (Hdbg & _).
  destruct (notifyAttached_while_attached 0%nat
              (SampleBuild.object true (Some 0%nat) (Some 7%nat))
              0%nat 1%nat (SampleBuild.world true (Some 0%nat))
              eq_refl eq_refl ltac:(simpl; lia)) as (_ & Hrel).
  split; [exact (Hdbg eq_refl)|].
  destruct (Hrel eq_refl) as (w' & Hw' & _ & Hnodes).
  exists w'. split; [exact Hw' | exact Hnodes].
Defined.

Lemma notifyAttached_listener_witness :
  ∃ w', _notifyAttached 0%nat (Some 1%nat) (SampleBuild.world false None)
        = Ok ((), w')
        ∧ events w' = [objectAttached 7%nat 0%nat].
Proof.
  destruct (notifyAttached_listener 0%nat
              (SampleBuild.object false None (Some 7%nat)) (Some 1%nat)
              (SampleBuild.world false None)
              eq_refl (or_introl eq_refl) ltac:(simpl; lia))
    as (w' & Hw' & _ & Hatt & _).
  exists w'. split; [exact Hw'|].
  exact (Hatt 7%nat 1%nat eq_refl eq_refl eq_refl).
Defined.

Lemma setRenderQueueGroupAndPriority_stores_witness :
  let o := SampleBuild.object false None None in
  setRenderQueueGroupAndPriority 60 7 o
  = Ok (set_mRenderQueuePriority 7 (set_mRenderQueueID 60 o))
  ∧ setRenderQueueGroupAndPriority 200 7 o = Fail AssertionFailed.
Proof.
  intros o.
  destruct (setRenderQueueGroupAndPriority_stores 60 0 7 o)
    as (Hok & _).
  destruct (setRenderQueueGroupAndPriority_stores 200 0 7 o)
    as (_ & Hfail).
  split.
  - apply Hok. right. simpl. lia.
  - apply Hfail; [reflexivity | simpl; lia].
Defined.

Lemma release_getWorldAabb_after_move_witness :
  let w := SampleBuild.world true (Some 0%nat) in
  ∃ w', _notifyMoved 0%nat w = Ok ((), w')
        ∧ objects w' = objects w
        ∧ getWorldAabb (SampleBuild.object true (Some 0%nat) (Some 7%nat))
          = Ok (9, 9).
Proof.
  intros w.
  destruct (release_getWorldAabb_after_move 0%nat
              (SampleBuild.object true (Some 0%nat) (Some 7%nat))
              (9, 9) w eq_refl eq_refl eq_refl)
    as (w' & Hw' & Hobjs & _ & _ & Hget & _).
  exists w'. split_and!; [exact Hw' | exact Hobjs | exact Hget].
Defined.

Lemma getReceivesShadows_exists_witness :
  let lit := {| getTechnique := Some {| getParent_getReceiveShadows := true |} |} in
  let unlit := {| getTechnique := Some {| getParent_getReceiveShadows := false |} |} in
  getReceivesShadows [unlit; lit] = true
  ∧ getReceivesShadows [unlit; unlit] = false
  ∧ getReceivesShadows [lit; unlit] = getReceivesShadows [unlit; lit].
Proof.
  intros lit unlit.
  destruct (getReceivesShadows_exists [unlit; lit] [lit; unlit])
    as (Hiff & _ & Hperm).
  split_and!.
  - apply Hiff. exists lit. split.
    + apply elem_of_cons. right. apply elem_of_cons. by left.
    + right. by eexists.
  - reflexivity.
  - symmetry. apply Hperm. apply Permutation_swap.
Defined.

Lemma getWorldAabbUpdated_frame_witness :
  getWorldAabbUpdated (SG := Sample.sceneGraph) 0%nat Sample.detachedWorld
  = Fail NullPointer
  ∧ getWorldAabbUpdated (SG := Sample.sceneGraph) 5%nat Sample.detachedWorld
    = Fail NullPointer.
Proof.
  destruct (getWorldAabbUpdated_frame (SG := Sample.sceneGraph) 0%nat
              Sample.detachedWorld) as (_ & Hobj).
  destruct (Hobj (Sample.object None true) eq_refl) as (Hnull & _).
  destruct (getWorldAabbUpdated_frame (SG := Sample.sceneGraph) 5%nat
              Sample.detachedWorld) as (Hmissing & _).
  split; [exact (Hnull eq_refl) | exact (Hmissing eq_refl)].
Defined.

Lemma getTypeFlags_without_creator_witness :
  let o := MovableObject_ctor 3%nat None (Sample.object None false) in
  getTypeFlags (λ _, 4) o = 4294967295
  ∧ Z.land (getTypeFlags (λ _, 4) o) 5 = 5.
Proof.
  intros o.
  destruct (getTypeFlags_without_creator (λ _, 4) 3%nat None
              (Sample.object None false) (Sample.object None false) 5)
    as (Hones & Hmask & _).
  split; [exact Hones|]. apply Hmask. lia.
Defined.

(* ===================================================================== *)
(** * Properties of [MeshBuilder] *)
(* ===================================================================== *)

Module MeshBuilderFacts.
Import MeshBuilder.

Section mesh_builder_facts.
Context {Ext : Externals} {VO : VertexOrder}.

Implicit Types (b : MeshBuilder.t) (v k : Vertex) (m : UMapVertexIndex).

Lemma sameKey_sym v k : sameKey v k = sameKey k v.
Proof. unfold sameKey. apply andb_comm. Qed.

Lemma find_Some v m i :
  find v m = Some i → ∃ k, (k, i) ∈ m ∧ sameKey k v = true.
Proof.
  induction m as [|[k j] m IH]; simpl; [done|].
  destruct (sameKey k v) eqn:Hk.
  - intros [= <-]. exists k. split; [apply elem_of_cons; by left | done].
  - intros Hf. destruct (IH Hf) as (k' & Hin & Hk').
    exists k'. split; [apply elem_of_cons; by right | done].
Qed.

Lemma find_None v m :
  find v m = None → ∀ k i, (k, i) ∈ m → sameKey k v = false.
Proof.
  induction m as [|[k j] m IH]; simpl.
  - intros _ k i Hin. by apply elem_of_nil in Hin.
  - destruct (sameKey k v) eqn:Hk; [done|].
    intros Hf k' i Hin. apply elem_of_cons in Hin as [[= -> ->] | Hin];
      [done | by eapply IH].
Qed.

(** What one [addVertex] does to the three containers. *)
Lemma addVertex_step v b :
  consistent b →
  ∃ i k extra,
    mIndices (addVertex v b) = mIndices b ++ [i]
    ∧ mVertices (addVertex v b) = mVertices b ++ extra
    ∧ (length extra ≤ 1)%nat
    ∧ mVertices (addVertex v b) !! i = Some k
    ∧ (k = v ∨ sameKey k v = true)
    ∧ consistent (addVertex v b)
    ∧ (distinctKeys b → distinctKeys (addVertex v b)).
Proof.
  intros (Hmap & Hvert & Hidx). unfold addVertex.
  destruct (find v (mIndexMap b)) as [i|] eqn:Hfind.
  - apply find_Some in Hfind as (k & Hin & Hk).
    exists i, k, []. simpl. rewrite app_nil_r.
    split_and!; try done; [simpl; lia | by apply Hmap | by right |].
    split_and!; try done. intros j i' Hj.
    apply lookup_app_Some in Hj as [Hj | [_ Hj]]; [by eapply Hidx|].
    apply list_lookup_singleton_Some in Hj as [_ <-].
    eapply lookup_lt_Some. by apply Hmap.
  - pose proof (find_None _ _ Hfind) as Hnone.
    exists (length (mVertices b)), v, [v]. simpl.
    split_and!; try done.
    + by rewrite lookup_app_r, Nat.sub_diag by lia.
    + by left.
    + split_and!; simpl.
      * intros k i Hin. apply elem_of_app in Hin as [Hin | Hin].
        { apply lookup_app_l_Some. by apply Hmap. }
        apply list_elem_of_singleton in Hin as [= -> ->].
        by rewrite lookup_app_r, Nat.sub_diag by lia.
      * intros i k Hi. apply elem_of_app.
        apply lookup_app_Some in Hi as [Hi | [Hge Hi]]; [left; by apply Hvert|].
        right. apply list_lookup_singleton_Some in Hi as [Hi <-].
        apply list_elem_of_singleton. f_equal. lia.
      * intros j i Hj. rewrite length_app. simpl.
        apply lookup_app_Some in Hj as [Hj | [_ Hj]].
        { apply Hidx in Hj. lia. }
        apply list_lookup_singleton_Some in Hj as [_ <-]. lia.
    + intros Hdist i j a c Hij Ha Hc.
      apply lookup_app_Some in Hc as [Hc | [Hge Hc]].
      * apply lookup_app_Some in Ha as [Ha | [Hge' _]].
        { by eapply Hdist. }
        apply lookup_lt_Some in Hc. lia.
      * apply list_lookup_singleton_Some in Hc as [Hj <-].
        apply lookup_app_Some in Ha as [Ha | [Hge' _]]; [|lia].
        eapply Hnone. by apply Hvert.
Qed.

Lemma foldl_addVertex vs b :
  (∀ v, Vertex_lt v v = false) → consistent b →
  let b' := foldl (λ acc v, addVertex v acc) b vs in
  consistent b'
  ∧ (distinctKeys b → distinctKeys b')
  ∧ ∃ idxs extra,
      mIndices b' = mIndices b ++ idxs ∧ length idxs = length vs
      ∧ mVertices b' = mVertices b ++ extra
      ∧ (length extra ≤ length vs)%nat
      ∧ ∀ j v, vs !! j = Some v →
          ∃ i k, idxs !! j = Some i ∧ mVertices b' !! i = Some k
                 ∧ sameKey k v = true.
Proof.
  intros Hirr. revert b. induction vs as [|v vs IH]; intros b Hc; simpl.
  - split; [done|]. split; [done|]. exists [], [].
    rewrite !app_nil_r. split_and!; try done.
  - destruct (addVertex_step v b Hc)
      as (i & k & extra & Hi & Hv & Hlen & Hk & Hsame & Hc1 & Hd1).
    destruct (IH _ Hc1) as (Hc' & Hd' & idxs & extra' & His & Hlis & Hvs
                            & Hlex & Hdec).
    split; [done|]. split; [tauto|].
    exists (i :: idxs), (extra ++ extra').
    rewrite His, Hi, Hvs, Hv, <- !app_assoc. simpl.
    split_and!; try done.
    + by rewrite Hlis.
    + rewrite length_app. lia.
    + intros [|j] v' Hj; simpl in *.
      * injection Hj as <-. exists i, k. split; [done|]. split.
        { rewrite app_assoc, <- Hv. by apply lookup_app_l_Some. }
        destruct Hsame as [-> | Hsame]; [|done].
        unfold sameKey. by rewrite Hirr.
      * destruct (Hdec j v' Hj) as (i' & k' & Hi' & Hk' & Hs').
        exists i', k'. split; [done|]. split; [|done].
        by rewrite Hvs, Hv, <- app_assoc in Hk'.
Qed.

(** The corners of the triangles, in the order in which [addTriangle]
    adds them. *)
Lemma foldl_addTriangle (ts : list Triangle) b :
  foldl (λ acc tr, addTriangle tr acc) b ts
  = foldl (λ acc v, addVertex v acc) b
      (ts ≫= λ tr, [mV1 tr; mV2 tr; mV3 tr]).
Proof.
  revert b. induction ts as [|tr ts IH]; intros b; simpl; [done|].
  by rewrite IH.
Qed.

(** X22: adding triangles to a mesh builder whose index map, vertices
    and indices fit together keeps them fitting: each triangle adds
    three indices and at most three vertices, no vertex or index already
    there is changed, every index points at a stored vertex, and the
    index written for a corner points at a vertex that is the same map
    key as the corner.  As long as the stored vertices were pairwise
    different keys, they still are: a corner whose key is known is not
    stored again. *)
Theorem addTriangle_indexes_corners (ts : list Triangle) b :
  (∀ v, Vertex_lt v v = false) → consistent b →
  let b' := foldl (λ acc tr, addTriangle tr acc) b ts in
  let corners := ts ≫= λ tr, [mV1 tr; mV2 tr; mV3 tr] in
  consistent b'
  ∧ (distinctKeys b → distinctKeys b')
  ∧ length (mIndices b') = (length (mIndices b) + 3 * length ts)%nat
  ∧ (length (mVertices b') ≤ length (mVertices b) + 3 * length ts)%nat
  ∧ (∀ j, (j < length (mIndices b))%nat →
       mIndices b' !! j = mIndices b !! j)
  ∧ (∀ i, (i < length (mVertices b))%nat →
       mVertices b' !! i = mVertices b !! i)
  ∧ (∀ j v, corners !! j = Some v →
       ∃ i k, mIndices b' !! (length (mIndices b) + j)%nat = Some i
              ∧ mVertices b' !! i = Some k ∧ sameKey k v = true).
Proof.
  intros Hirr Hc b' corners. subst b'. rewrite foldl_addTriangle.
  fold corners.
  destruct (foldl_addVertex corners b Hirr Hc)
    as (Hc' & Hd' & idxs & extra & His & Hlis & Hvs & Hlex & Hdec).
  assert (length corners = (3 * length ts)%nat) as Hlen.
  { subst corners. clear. induction ts as [|tr ts IH]; [done|].
    rewrite bind_cons, length_app, IH. simpl. lia. }
  split_and!; try done.
  - rewrite His, length_app. lia.
  - rewrite Hvs, length_app. lia.
  - intros j Hj. by rewrite His, lookup_app_l.
  - intros i Hi. by rewrite Hvs, lookup_app_l.
  - intros j v Hj. destruct (Hdec j v Hj) as (i & k & Hi & Hk & Hs).
    exists i, k. split; [|done].
    rewrite His, lookup_app_r by lia.
    by replace (length (mIndices b) + j - length (mIndices b))%nat with j
      by lia.
Qed.

Section bounding_box.
Context {RO : RealOrder}.







End bounding_box.
End mesh_builder_facts.
End MeshBuilderFacts.

Lemma listLt_irrefl (a : list Z) : SampleMesh.listLt a a = false.
Proof.
  induction a as [|x a IH]; simpl; [done|].
  by rewrite Z.ltb_irrefl, Z.eqb_refl, IH.
Qed.

Lemma addTriangle_indexes_corners_witness :
  let b' := foldl (λ acc tr, MeshBuilder.addTriangle
                               (VO := SampleMesh.vertexOrder) tr acc)
              SampleMesh.emptyBuilder SampleMesh.twoTriangles in
  MeshBuilder.mIndices b' = [0; 1; 2; 1; 3; 2]%nat
  ∧ length (MeshBuilder.mVertices b') = 4%nat
  ∧ MeshBuilder.consistent b'
  ∧ MeshBuilder.distinctKeys (VO := SampleMesh.vertexOrder) b'.
Proof.
  intros b'.
  assert (MeshBuilder.consistent SampleMesh.emptyBuilder) as Hc.
  { split_and!; simpl.
    - intros k i Hin. by apply elem_of_nil in Hin.
    - intros i k Hi. done.
    - intros j i Hj. done. }
  assert (MeshBuilder.distinctKeys (VO := SampleMesh.vertexOrder)
            SampleMesh.emptyBuilder) as Hd.
  { intros i j a c _ Ha. done. }
  destruct (MeshBuilderFacts.addTriangle_indexes_corners
              (VO := SampleMesh.vertexOrder) SampleMesh.twoTriangles
              SampleMesh.emptyBuilder
              (λ v, listLt_irrefl (SampleMesh.members v)) Hc)
    as (Hc' & Hd' & _).
  split; [reflexivity|]. split; [reflexivity|].
  split; [exact Hc' | exact (Hd' Hd)].
Defined.


(* ===================================================================== *)
(** * Properties of [addCubeToManualObject] and [getGLID] *)
(* ===================================================================== *)

Module ManualCubeFacts.
Import ManualCube.

Section manual_cube_facts.
Context {Ext : Externals}.

(** X24: when [baseIndex] is the number of positions of the manual
    object and every index of the object names one of its positions,
    [addCubeToManualObject] keeps both true, as long as the count fits a
    [size_t]: it appends the eight corners in order and twenty-four
    indices, each naming one of these eight, and moves [baseIndex] on by
    eight; nothing that the object held is changed. *)
Theorem addCubeToManualObject_indices (manual : ManualObject)
    (c0 c1 c2 c3 c4 c5 c6 c7 : Vector3.t) (baseIndex : Z) :
  cubeInv manual baseIndex → baseIndex + 8 < 2 ^ 64 →
  let r := addCubeToManualObject manual c0 c1 c2 c3 c4 c5 c6 c7 baseIndex in
  cubeInv (fst r) (snd r)
  ∧ snd r = baseIndex + 8
  ∧ positions (fst r) = positions manual ++ [c0; c1; c2; c3; c4; c5; c6; c7]
  ∧ ∃ added, indices (fst r) = indices manual ++ added
      ∧ length added = 24%nat
      ∧ Forall (λ i, baseIndex ≤ i < baseIndex + 8) added.
Proof.
  destruct manual as [ps ixs].
  intros [Hbase Hall] Hfit r. cbn [positions indices] in Hbase, Hall.
  assert (0 ≤ baseIndex) as Hnn by lia.
  assert (∀ k, 0 ≤ k ≤ 8 → wrap64 (baseIndex + k) = baseIndex + k) as Hwrap.
  { intros k Hk. apply BoxFacts.wrap64_small. unfold in_size_t. lia. }
  subst r.
  cbv [addCubeToManualObject edge index position positions indices fst snd
       cubeInv].
  rewrite !Hwrap by lia. rewrite <- !app_assoc. cbn [app].
  split; [split|split; [|split]].
  - rewrite length_app. cbn [length]. lia.
  - rewrite length_app. cbn [length]. apply Forall_app. split.
    + eapply Forall_impl; [exact Hall|]. cbn beta. intros i Hi. lia.
    + repeat (apply Forall_cons; split; [lia|]). apply Forall_nil_2.
  - done.
  - done.
  - eexists. split; [reflexivity|]. split; [reflexivity|].
    repeat (apply Forall_cons; split; [lia|]). apply Forall_nil_2.
Qed.

End manual_cube_facts.

Lemma addCubeToManualObject_indices_witness :
  let c := @Vector3.Build Sample.externals 0 0 0 in
  let r := addCubeToManualObject (Build [] []) c c c c c c c c 0 in
  let r2 := addCubeToManualObject (fst r) c c c c c c c c (snd r) in
  snd r2 = 16 ∧ cubeInv (fst r2) (snd r2)
  ∧ last (indices (fst r2)) = Some 15.
Proof.
  intros c r r2.
  assert (cubeInv (Build (Ext := Sample.externals) [] []) 0) as H0
    by (split; [reflexivity | apply Forall_nil_2]).
  destruct (addCubeToManualObject_indices (Build [] []) c c c c c c c c 0
              H0 ltac:(by vm_compute)) as (H1 & _).
  destruct (addCubeToManualObject_indices (fst r) c c c c c c c c (snd r)
              H1 ltac:(by vm_compute)) as (H2 & _).
  split; [reflexivity|]. split; [exact H2 | reflexivity].
Defined.

End ManualCubeFacts.

Module GL3PlusTextureFacts.
Import GL3PlusTexture.

Section get_glid_facts.
Context {RTO : RenderTargetOps}.

Implicit Types (tex : GL3PlusTexture.t) (surfaces : list RenderTarget)
  (rt : RenderTarget).

Lemma resolveFaces_Ok count face m surfaces surfaces' :
  resolveFaces count face m surfaces = Ok surfaces' →
  length surfaces' = length surfaces
  ∧ (∀ k, (∀ f, (face ≤ f < face + count)%nat → k ≠ (f * (m + 1))%nat) →
       surfaces' !! k = surfaces !! k)
  ∧ (∀ f, (face ≤ f < face + count)%nat →
       ∃ rt, surfaces !! (f * (m + 1))%nat = Some rt
             ∧ surfaces' !! (f * (m + 1))%nat = Some (resolved rt)).
Proof.
  revert face surfaces. induction count as [|count IH];
    intros face surfaces; simpl.
  - intros [= <-]. split; [done|]. split; [done|]. intros f Hf. lia.
  - unfold arrayGet, mbind, result_bind.
    destruct (surfaces !! (face * (m + 1))%nat) as [rt|] eqn:Hrt; [|done].
    intros Hrest. apply IH in Hrest as (Hlen & Hother & Hfaces).
    assert (length (if isFsaaResolveDirty rt
                    then <[(face * (m + 1))%nat := swapBuffers rt]> surfaces
                    else surfaces) = length surfaces) as Hlen1
      by (destruct (isFsaaResolveDirty rt); [apply length_insert | done]).
    assert (∀ k, k ≠ (face * (m + 1))%nat →
              (if isFsaaResolveDirty rt
               then <[(face * (m + 1))%nat := swapBuffers rt]> surfaces
               else surfaces) !! k = surfaces !! k) as Hne.
    { intros k Hk. destruct (isFsaaResolveDirty rt); [|done].
      by apply list_lookup_insert_ne. }
    assert ((if isFsaaResolveDirty rt
             then <[(face * (m + 1))%nat := swapBuffers rt]> surfaces
             else surfaces) !! (face * (m + 1))%nat = Some (resolved rt))
      as Heq.
    { unfold resolved. destruct (isFsaaResolveDirty rt); [|done].
      apply list_lookup_insert_eq. by eapply lookup_lt_Some. }
    split_and!.
    + by rewrite Hlen.
    + intros k Hk. rewrite Hother.
      * apply Hne. apply Hk. lia.
      * intros f Hf. apply Hk. lia.
    + intros f Hf. destruct (decide (f = face)) as [->|Hfne].
      * exists rt. split; [done|]. rewrite Hother; [done|].
        intros f Hf'. nia.
      * destruct (Hfaces f) as (rt' & Hrt' & Hres); [lia|].
        exists rt'. split; [|done]. rewrite <- Hrt'. symmetry.
        apply Hne. nia.
Qed.

Lemma resolveFaces_in_range count face m surfaces :
  (∀ f, (face ≤ f < face + count)%nat →
     (f * (m + 1) < length surfaces)%nat) →
  ∃ surfaces', resolveFaces count face m surfaces = Ok surfaces'.
Proof.
  revert face surfaces. induction count as [|count IH];
    intros face surfaces Hr; simpl; [by eexists|].
  unfold arrayGet, mbind, result_bind.
  destruct (lookup_lt_is_Some_2 surfaces (face * (m + 1))%nat) as [rt ->].
  { apply Hr. lia. }
  apply IH. intros f Hf.
  assert (f * (m + 1) < length surfaces)%nat by (apply Hr; lia).
  destruct (isFsaaResolveDirty rt); [by rewrite length_insert | done].
Qed.

(** X25: whenever [getGLID] returns, it returns [mTextureID].
    [outIsFsaa] is true exactly when the texture is antialiased, resolves
    are explicit and the render target of the first surface is still
    unresolved; in that case the id of the multisample frame buffer was
    fetched into [retVal], and it is not the value returned.  With
    explicit resolves, or without antialiasing, no render target is
    touched; without antialiasing the surface list is not even looked
    at. *)
Theorem getGLID_returns_mTextureID tex id outIsFsaa retVal tex' :
  getGLID tex = Ok (id, outIsFsaa, retVal, tex') →
  id = mTextureID tex
  ∧ (outIsFsaa = true ↔
       0 < mFSAA tex ∧ mFsaaExplicitResolve tex = true
       ∧ ∃ rt, mSurfaceList tex !! 0%nat = Some rt
               ∧ isFsaaResolveDirty rt = true)
  ∧ (outIsFsaa = true →
     ∃ rt, mSurfaceList tex !! 0%nat = Some rt
           ∧ retVal = multisampleFboId rt)
  ∧ (outIsFsaa = false → retVal = mTextureID tex)
  ∧ (mFsaaExplicitResolve tex = true ∨ mFSAA tex ≤ 0 → tex' = tex)
  ∧ (mFSAA tex ≤ 0 →
     getGLID tex = Ok (mTextureID tex, false, mTextureID tex, tex)).
Proof.
  unfold getGLID, arrayGet, mbind, mret, result_bind, result_ret.
  destruct (Z.ltb_spec 0 (mFSAA tex)) as [Hfsaa|Hfsaa].
  - destruct (mSurfaceList tex !! 0%nat) as [rt|] eqn:Hrt; [|done].
    destruct (mFsaaExplicitResolve tex) eqn:Hexp; simpl.
    + destruct (isFsaaResolveDirty rt) eqn:Hdirty.
      * intros [= <- <- <- <-]. split_and!; try done.
        { split; [|done]. intros _. split_and!; try done. by exists rt. }
        { intros _. by exists rt. }
        { lia. }
      * intros [= <- <- <- <-]. split_and!; try done.
        split; [done|]. intros (_ & _ & rt' & [= <-] & Hd). congruence.
    + destruct (resolveFaces _ _ _ _) as [surfaces'|]; [|done].
      intros [= <- <- <- <-]. split_and!; try done.
      * split; [done|]. by intros (_ & ? & _).
      * intros [? | ?]; [done | lia].
      * lia.
  - intros [= <- <- <- <-]. split_and!; try done.
    split; [done|]. intros (? & _). lia.
Qed.

(** X26: on an antialiased texture without explicit resolves, [getGLID]
    visits the first surface of every face, at the indices
    [face * (mNumMipmaps + 1)]: it succeeds when these indices are
    within the surface list (and the list is not empty), calls
    [swapBuffers] on exactly those of these render targets that are
    unresolved, and leaves every other surface and all other members as
    they are.  With an empty surface list the access to the first
    surface is out of range. *)
Theorem getGLID_resolves_faces tex :
  0 < mFSAA tex → mFsaaExplicitResolve tex = false →
  ((0 < length (mSurfaceList tex))%nat →
   (∀ f, (f < getNumFaces tex)%nat →
      (f * (mNumMipmaps tex + 1) < length (mSurfaceList tex))%nat) →
   ∃ tex',
     getGLID tex = Ok (mTextureID tex, false, mTextureID tex, tex')
     ∧ mTextureID tex' = mTextureID tex ∧ mFSAA tex' = mFSAA tex
     ∧ mNumMipmaps tex' = mNumMipmaps tex
     ∧ getNumFaces tex' = getNumFaces tex
     ∧ length (mSurfaceList tex') = length (mSurfaceList tex)
     ∧ (∀ f, (f < getNumFaces tex)%nat →
          ∃ rt, mSurfaceList tex !! (f * (mNumMipmaps tex + 1))%nat = Some rt
                ∧ mSurfaceList tex' !! (f * (mNumMipmaps tex + 1))%nat
                  = Some (resolved rt))
     ∧ (∀ k, (∀ f, (f < getNumFaces tex)%nat →
                k ≠ (f * (mNumMipmaps tex + 1))%nat) →
          mSurfaceList tex' !! k = mSurfaceList tex !! k))
  ∧ (mSurfaceList tex = [] → getGLID tex = Fail OutOfRange).
Proof.
  intros Hfsaa Hexp. split.
  - intros Hne Hrange.
    destruct (resolveFaces_in_range (getNumFaces tex) 0 (mNumMipmaps tex)
                (mSurfaceList tex)) as [surfaces' Hres].
    { intros f Hf. apply Hrange. lia. }
    destruct (resolveFaces_Ok _ _ _ _ _ Hres) as (Hlen & Hother & Hfaces).
    eexists. split.
    + unfold getGLID, arrayGet, mbind, mret, result_bind, result_ret.
      destruct (Z.ltb_spec 0 (mFSAA tex)); [|lia].
      destruct (lookup_lt_is_Some_2 (mSurfaceList tex) 0%nat Hne) as [rt ->].
      rewrite Hexp. simpl. rewrite Hres. reflexivity.
    + simpl. split_and!; try done.
      * intros f Hf. apply Hfaces. lia.
      * intros k Hk. apply Hother. intros f Hf. apply Hk. lia.
  - intros Hnil. unfold getGLID, arrayGet, mbind, result_bind.
    destruct (Z.ltb_spec 0 (mFSAA tex)); [|lia]. by rewrite Hnil.
Qed.

End get_glid_facts.

Lemma getGLID_returns_mTextureID_witness :
  let ops := {| swapBuffers := λ rt,
                  {| isFsaaResolveDirty := false;
                     multisampleFboId := multisampleFboId rt |} |} in
  let dirty := {| isFsaaResolveDirty := true; multisampleFboId := 77 |} in
  let tex := Build 5 4 true 0 1 [dirty] in
  getGLID (RTO := ops) tex = Ok (5, true, 77, tex).
Proof.
  intros ops dirty tex.
  assert (getGLID (RTO := ops) tex = Ok (5, true, 77, tex)) as Hrun
    by reflexivity.
  destruct (getGLID_returns_mTextureID (RTO := ops) tex 5 true 77 tex Hrun)
    as (_ & _ & _ & _ & _ & _).
  exact Hrun.
Defined.

Lemma getGLID_resolves_faces_witness :
  let ops := {| swapBuffers := λ rt,
                  {| isFsaaResolveDirty := false;
                     multisampleFboId := multisampleFboId rt |} |} in
  let dirty := {| isFsaaResolveDirty := true; multisampleFboId := 77 |} in
  let clean := {| isFsaaResolveDirty := false; multisampleFboId := 77 |} in
  let tex := Build 5 4 false 1 2 [dirty; dirty; clean; dirty] in
  ∃ tex', getGLID (RTO := ops) tex = Ok (5, false, 5, tex')
          ∧ mSurfaceList tex' = [clean; dirty; clean; dirty].
Proof.
  intros ops dirty clean tex.
  destruct (getGLID_resolves_faces (RTO := ops) tex) as (Hok & _);
    [reflexivity | reflexivity |].
  destruct Hok as (tex' & Hrun & _).
  - simpl. lia.
  - intros f Hf. simpl in *. lia.
  - exists tex'. split; [exact Hrun|].
    assert (getGLID (RTO := ops) tex
            = Ok (5, false, 5,
                  Build 5 4 false 1 2 [clean; dirty; clean; dirty])) as Hc
      by reflexivity.
    rewrite Hc in Hrun. by injection Hrun as <-.
Defined.

End GL3PlusTextureFacts.
